(** * The infinite spaced-repetition scheduler of DSA-AI

    A shallow embedding of the review scheduler: the store actions of
    [client/src/lib/store.ts] ([seedCardsFromUnits], [initialReviewState],
    [qualityFromGrade], [ensureReviewCardsFromUnits],
    [addGeneratedReviewCards], [recordReviewResult]) and the selection
    functions of [client/src/components/features/InfiniteReviewSession.tsx]
    ([weightedRandomByOverdue], [getNextCard]).

    Numbers.  Every JavaScript [number] is an IEEE-754 double.  The fields
    that only ever hold integers (counters, day intervals, millisecond
    timestamps) are modelled as [Z].  The ease factor is the rational value
    of a double: every product, sum and difference of the interval and ease
    arithmetic is rounded to the nearest double, ties to even ([double]),
    operation by operation in the order JavaScript evaluates them, and the
    literals [1.3], [0.1], [0.08], [0.02] and [1.15] are the doubles nearest
    to them.  The exponent range is not modelled: there is no overflow to
    [Infinity] and no gradual underflow.  The selection weights and the
    random draw are exact rationals [Q], with [0.5] standing for 1/2.

    Effects.  [Date.now()] and [Math.random()] are read from explicit
    parameters ([now] and [u], with [0 <= u < 1] stated where a proof needs
    it).  A zustand action [set((state) => partial)] is a function from the
    store to the store; the fields of the store that the review actions never
    touch are left out of [AppState]. *)

From Stdlib Require Import ZArith QArith Qround Qminmax Qpower Lia Lqa.
From stdpp Require Import base gmap strings list.

Local Open Scope Z_scope.

(** * Part I: the model *)

(** ** Data model ([client/src/lib/types.ts]) *)

Inductive Phase := learn | review.

#[global] Instance Phase_eq_dec : EqDecision Phase.
Proof. solve_decision. Defined.

Inductive ReviewGrade := again | hard | good | easy.

Record ReviewCardState := mkReviewCardState {
  phase : Phase;
  seenCount : Z;
  dueAt : Z;
  interval : Z;
  repetition : Z;
  efactor : Q;
  lapses : Z;
  lastReviewedAt : option Z
}.

Record Flashcard := mkFlashcard {
  fc_id : string;
  fc_unitId : string;
  fc_front : string;
  fc_back : string
}.

(** Of a [Unit] only the fields read by [seedCardsFromUnits]. *)
Record Unit := mkUnit {
  unit_id : string;
  unit_title : string;
  flashcards : list Flashcard
}.

Inductive CardSource := seed | ai.

Inductive Difficulty := DiffEasy | DiffMedium | DiffHard.

Record ParsonsBlock := mkParsonsBlock {
  pb_id : string;
  pb_text : string;
  pb_indent : Z;
  pb_isBlank : option bool;
  pb_placeholder : option string;
  pb_answer : option string;
  pb_isDistractor : option bool
}.

Record ReviewConceptCard := mkReviewConceptCard {
  cc_id : string;
  cc_unitId : string;
  cc_source : CardSource;
  cc_front : string;
  cc_back : string;
  cc_tags : option (list string)
}.

Record ReviewCodeParsonsCard := mkReviewCodeParsonsCard {
  cp_id : string;
  cp_unitId : string;
  cp_prompt : string;
  cp_explanation : string;
  cp_leetcodeUrl : string;
  cp_difficulty : Difficulty;
  cp_functionName : string;
  cp_blocks : list ParsonsBlock;
  cp_solutionOrder : list string
}.

(** [ReviewCard = ReviewConceptCard | ReviewCodeParsonsCard], the [type]
    field being the constructor. *)
Inductive ReviewCard :=
| concept (c : ReviewConceptCard)
| code_parsons (c : ReviewCodeParsonsCard).

(** [card.id] on the union type. *)
Definition card_id (c : ReviewCard) : string :=
  match c with
  | concept c => cc_id c
  | code_parsons c => cp_id c
  end.

(** The review part of the zustand store. *)
Record AppState := mkAppState {
  reviewCards : list ReviewCard;
  reviewCardState : gmap string ReviewCardState
}.

(** ** Store actions ([client/src/lib/store.ts]) *)

Definition seedCardsFromUnits (units : list Unit) : list ReviewCard :=
  flat_map (fun unit =>
    map (fun card =>
      concept {| cc_id := fc_id card;
                 cc_unitId := fc_unitId card;
                 cc_source := seed;
                 cc_front := fc_front card;
                 cc_back := fc_back card;
                 cc_tags := Some [unit_title unit] |})
      (flashcards unit)) units.

Definition initialReviewState : ReviewCardState :=
  {| phase := learn;
     seenCount := 0;
     dueAt := 0;
     interval := 0;
     repetition := 0;
     efactor := 5 # 2;
     lapses := 0;
     lastReviewedAt := None |}.

Definition qualityFromGrade (grade : ReviewGrade) : Z :=
  match grade with
  | again => 1
  | hard => 2
  | good => 4
  | easy => 5
  end.

(** [new Set(state.reviewCards.map((c) => c.id))]. *)
Definition idSet (cards : list ReviewCard) : gset string :=
  list_to_set (map card_id cards).

(** [additions.forEach((card) => { nextStates[card.id] = initialReviewState(); })]
    on a copy of the state object. *)
Definition withInitialStates (additions : list ReviewCard)
    (states : gmap string ReviewCardState) : gmap string ReviewCardState :=
  foldl (fun nextStates card => <[card_id card := initialReviewState]> nextStates)
        states additions.

(** The review fields of the store as created: the seed deck of the default
    units, and
    [Object.fromEntries(seeds.map((card) => [card.id, initialReviewState()]))]. *)
Definition initialAppState (DEFAULT_UNITS : list Unit) : AppState :=
  {| reviewCards := seedCardsFromUnits DEFAULT_UNITS;
     reviewCardState := withInitialStates (seedCardsFromUnits DEFAULT_UNITS) ∅ |}.

Definition ensureReviewCardsFromUnits (units : list Unit) (state : AppState) : AppState :=
  let existingById := idSet (reviewCards state) in
  let additions :=
    filter (fun card => card_id card ∉ existingById) (seedCardsFromUnits units) in
  if (length additions =? 0)%nat then state
  else {| reviewCards := reviewCards state ++ additions;
          reviewCardState := withInitialStates additions (reviewCardState state) |}.

Definition addGeneratedReviewCards (cards : list ReviewCard) (state : AppState) : AppState :=
  let byId := idSet (reviewCards state) in
  let unique := filter (fun c => card_id c ∉ byId) cards in
  if (length unique =? 0)%nat then state
  else {| reviewCards := reviewCards state ++ unique;
          reviewCardState := withInitialStates unique (reviewCardState state) |}.

(** ** Double-precision arithmetic *)

(** [2^k] for an integer [k] of either sign. *)
Definition pow2 (k : Z) : Q := Qpower 2 k.

(** The binade of a positive rational: the [l] with [2^l <= x < 2^(l+1)]. *)
Definition binade (x : Q) : Z :=
  let k := Z.log2 (Qnum x) - Z.log2 (Zpos (Qden x)) in
  if Qle_bool (pow2 k) x then k else k - 1.

(** The nearest integer, ties to the even one. *)
Definition roundHalfEven (y : Q) : Z :=
  let f := Qfloor y in
  let r := (y - inject_Z f)%Q in
  if Qlt_le_dec r (1 # 2) then f
  else if Qlt_le_dec (1 # 2) r then f + 1
  else if Z.even f then f else f + 1.

(** The double nearest to a positive rational: the rational is scaled into
    [2^52, 2^53), rounded to an integer mantissa of 53 bits and scaled
    back. *)
Definition roundPositive (x : Q) : Q :=
  let e := binade x - 52 in
  Qred (inject_Z (roundHalfEven (x * pow2 (- e))) * pow2 e).

(** The double nearest to a rational, ties to even: the value that a
    JavaScript operation stores when its exact result is [x], and the value
    of a decimal literal. *)
Definition double (x : Q) : Q :=
  match Qnum x with
  | 0 => 0%Q
  | Z.pos _ => roundPositive x
  | Z.neg _ => (- roundPositive (- x))%Q
  end.

(** [x * y], [x + y] and [x - y] on doubles. *)
Definition double_mul (x y : Q) : Q := double (x * y).
Definition double_add (x y : Q) : Q := double (x + y).
Definition double_sub (x y : Q) : Q := double (x - y).

Arguments double : simpl never.
Arguments double_mul : simpl never.
Arguments double_add : simpl never.
Arguments double_sub : simpl never.

(** The relative error of one rounding, [2^-53]. *)
Definition ulpError : Q := 1 # 9007199254740992.

(** [Math.round]: the nearest integer, ties towards plus infinity. *)
Definition Math_round (x : Q) : Z := Qfloor (x + (1 # 2)).

(** [24 * 60 * 60 * 1000]. *)
Definition MS_PER_DAY : Z := 24 * 60 * 60 * 1000.

(** The learning branch of [recordReviewResult]: the object literal
    [{ ...prev, phase, seenCount, dueAt, interval, repetition, lastReviewedAt }]. *)
Definition learnStep (prev : ReviewCardState) (now : Z) : ReviewCardState :=
  let seenCount' := seenCount prev + 1 in
  let hasGraduated := 10 <=? seenCount' in
  {| phase := if hasGraduated then review else learn;
     seenCount := seenCount';
     dueAt := if hasGraduated then now + MS_PER_DAY else now;
     interval := if hasGraduated then 1 else 0;
     repetition := if hasGraduated then 1 else 0;
     efactor := efactor prev;
     lapses := lapses prev;
     lastReviewedAt := Some now |}.

(** The ease update
    [efactor + (0.1 - (5 - quality) * (0.08 + (5 - quality) * 0.02))]
    followed by [if (efactor < 1.3) efactor = 1.3]; [easeDelta] is the
    parenthesised term, [5 - quality] being exact. *)
Definition easeDelta (quality : Z) : Q :=
  double_sub (double (1 # 10))
    (double_mul (inject_Z (5 - quality))
       (double_add (double (2 # 25))
          (double_mul (inject_Z (5 - quality)) (double (1 # 50))))).

Definition nextEfactor (efactor : Q) (quality : Z) : Q :=
  let efactor' := double_add efactor (easeDelta quality) in
  if Qlt_le_dec efactor' (double (13 # 10)) then double (13 # 10) else efactor'.

(** The review branch of [recordReviewResult] (SM-2 style scheduling): the
    object literal [{ ...prev, phase: 'review', interval, repetition, efactor,
    lapses, dueAt, lastReviewedAt }]. *)
Definition reviewStep (prev : ReviewCardState) (grade : ReviewGrade) (now : Z)
    : ReviewCardState :=
  let quality := qualityFromGrade grade in
  let '(interval', repetition', lapses') :=
    if quality <? 3 then (1, 0, lapses prev + 1)
    else
      let interval' :=
        if repetition prev =? 0 then 1
        else if repetition prev =? 1 then 6
        else
          let bonus := if quality =? 5 then double (23 # 20) else 1%Q in
          Z.max 1 (Math_round (double_mul
                                 (double_mul (inject_Z (interval prev)) (efactor prev))
                                 bonus))
      in (interval', repetition prev + 1, lapses prev) in
  {| phase := review;
     seenCount := seenCount prev;
     dueAt := now + interval' * MS_PER_DAY;
     interval := interval';
     repetition := repetition';
     efactor := nextEfactor (efactor prev) quality;
     lapses := lapses';
     lastReviewedAt := Some now |}.

(** The state that [recordReviewResult] writes under [cardId]. *)
Definition gradedState (prev : ReviewCardState) (grade : ReviewGrade) (now : Z)
    : ReviewCardState :=
  match phase prev with
  | learn => learnStep prev now
  | review => reviewStep prev grade now
  end.

(** [recordReviewResult(cardId, grade)], with [now] the value of [Date.now()].
    [state.reviewCardState[cardId] || initialReviewState()] is the lookup with
    a default; the action contains no [throw]. *)
Definition recordReviewResult (cardId : string) (grade : ReviewGrade) (now : Z)
    (state : AppState) : AppState :=
  let prev := default initialReviewState (reviewCardState state !! cardId) in
  {| reviewCards := reviewCards state;
     reviewCardState := <[cardId := gradedState prev grade now]> (reviewCardState state) |}.

(** ** Card selection ([InfiniteReviewSession.tsx]) *)

(** The weight given to one card by [weightedRandomByOverdue]; [now] is the
    helper's own [Date.now()].  [st?.dueAt || now] falls back to [now] when
    the state is missing and also when [dueAt] is [0] (a falsy number);
    [st?.lapses || 0] likewise. *)
Definition overdueWeight (now : Z) (stateById : gmap string ReviewCardState)
    (card : ReviewCard) : Q :=
  let st := stateById !! card_id card in
  let due := match st with
             | Some s => if dueAt s =? 0 then now else dueAt s
             | None => now
             end in
  let overdueDays :=
    Qmax 0 (inject_Z (now - due) / inject_Z (1000 * 60 * 60 * 24)) in
  let lapses := match st with
                | Some s => lapses s
                | None => 0
                end in
  (1 + overdueDays + inject_Z lapses * (1 # 2))%Q.

(** The loop [for (const item of weighted) { rand -= item.weight;
    if (rand <= 0) return item.card; }]; [None] when it runs off the end. *)
Fixpoint drawLoop (rand : Q) (weighted : list (ReviewCard * Q)) : option ReviewCard :=
  match weighted with
  | [] => None
  | (card, weight) :: rest =>
      let rand' := (rand - weight)%Q in
      if Qle_bool rand' 0 then Some card else drawLoop rand' rest
  end.

(** [weightedRandomByOverdue(cards, stateById)] with [u] the value of
    [Math.random()].  [None] stands for the [TypeError] of
    [weighted[0].card] on an empty [cards]; [getNextCard] never passes one. *)
Definition weightedRandomByOverdue (now : Z) (u : Q) (cards : list ReviewCard)
    (stateById : gmap string ReviewCardState) : option ReviewCard :=
  let weighted := map (fun card => (card, overdueWeight now stateById card)) cards in
  let total := foldl (fun sum item => (sum + snd item)%Q) 0%Q weighted in
  let rand := (u * total)%Q in
  match drawLoop rand weighted with
  | Some card => Some card
  | None => fst <$> head weighted
  end.

(** [st && st.phase === "learn" && st.seenCount < 10]. *)
Definition isLearning (stateById : gmap string ReviewCardState) (c : ReviewCard) : bool :=
  match stateById !! card_id c with
  | Some st => bool_decide (phase st = learn) && (seenCount st <? 10)
  | None => false
  end.

(** [st && st.phase === "review" && st.dueAt <= now]. *)
Definition isDue (now : Z) (stateById : gmap string ReviewCardState) (c : ReviewCard) : bool :=
  match stateById !! card_id c with
  | Some st => bool_decide (phase st = review) && (dueAt st <=? now)
  | None => false
  end.

(** [stateById[c.id]?.seenCount ?? 0]. *)
Definition seenOf (stateById : gmap string ReviewCardState) (c : ReviewCard) : Z :=
  match stateById !! card_id c with
  | Some st => seenCount st
  | None => 0
  end.

(** [arr[i]] for an integer-valued index: [undefined] out of range. *)
Definition at_index {A} (arr : list A) (i : Z) : option A :=
  if i <? 0 then None else arr !! Z.to_nat i.

(** [getNextCard(cards, stateById)]: [now] is its own [Date.now()], [now']
    the later one read inside [weightedRandomByOverdue], [u] the single
    [Math.random()] drawn on either path.  [Math.min(...xs)] is only
    evaluated on a non-empty pool, where it is the fold of [Z.min].  [None]
    is [null] (or the [undefined] of an index out of range). *)
Definition getNextCard (now now' : Z) (u : Q) (cards : list ReviewCard)
    (stateById : gmap string ReviewCardState) : option ReviewCard :=
  let learningCards := filter (fun c => isLearning stateById c) cards in
  match learningCards with
  | c0 :: rest =>
      let minSeen := foldl Z.min (seenOf stateById c0) (map (seenOf stateById) rest) in
      let bucket := filter (fun c => seenOf stateById c = minSeen) learningCards in
      at_index bucket (Qfloor (u * inject_Z (Z.of_nat (length bucket))))
  | [] =>
      let dueCards := filter (fun c => isDue now stateById c) cards in
      if (length dueCards =? 0)%nat then None
      else weightedRandomByOverdue now' u dueCards stateById
  end.

(** * Part II: vocabulary of the properties *)

(** ** Sequences of grades *)

(** One card graded once per event: the grade and the clock at that moment. *)
Definition gradeSeq (st : ReviewCardState) (events : list (ReviewGrade * Z))
    : ReviewCardState :=
  foldl (fun s ev => gradedState s (fst ev) (snd ev)) st events.

(** A session of grading events, each naming its card: one call of the store
    action per event, in order. *)
Definition recordEvents (events : list (string * ReviewGrade * Z))
    (state : AppState) : AppState :=
  foldl (fun s ev => recordReviewResult (fst (fst ev)) (snd (fst ev)) (snd ev) s)
        state events.

(** The events of a session that grade the card [cardId]. *)
Definition ownEvents (cardId : string) (events : list (string * ReviewGrade * Z))
    : list (ReviewGrade * Z) :=
  map (fun ev => (snd (fst ev), snd ev))
      (filter (fun ev => fst (fst ev) = cardId) events).

(** ** Invariants *)

(** Every stored ease factor is at or above the floor [1.3]. *)
Definition easeFloorHolds (state : AppState) : Prop :=
  forall (id : string) (st : ReviewCardState),
    reviewCardState state !! id = Some st -> (13 # 10 <= efactor st)%Q.

(** ** The weighted draw *)


(** ** The specification's wording, for comparison with the code *)

(** The fresh CardState as the specification describes it: due at the
    creation time [now]. *)
Definition specInitialState (now : Z) : ReviewCardState :=
  {| phase := learn;
     seenCount := 0;
     dueAt := now;
     interval := 0;
     repetition := 0;
     efactor := 5 # 2;
     lapses := 0;
     lastReviewedAt := None |}.

(** The passing grades as the specification lists them: Hard, Good and Easy. *)
Definition specPassingGrade (grade : ReviewGrade) : bool :=
  match grade with
  | again => false
  | hard | good | easy => true
  end.

(** The interval after a passing grade as the specification words it: from
    the third success on it is [round(interval * ease * bonus)], with nothing
    keeping it at or above one. *)
Definition specPassInterval (st : ReviewCardState) (grade : ReviewGrade) : Z :=
  if repetition st =? 0 then 1
  else if repetition st =? 1 then 6
  else Math_round (inject_Z (interval st) * efactor st
                   * (match grade with easy => 23 # 20 | _ => 1 end)).


(** ** Sample data *)

Definition emptyStore : AppState :=
  {| reviewCards := []; reviewCardState := ∅ |}.

Definition sampleCard (id : string) : ReviewCard :=
  concept {| cc_id := id;
             cc_unitId := "two-sum";
             cc_source := ai;
             cc_front := "What does a hash map trade?";
             cc_back := "Space for time.";
             cc_tags := None |}.

(** A deck of two generated cards, both still unseen. *)
Definition sampleStore : AppState :=
  addGeneratedReviewCards [sampleCard "c1"; sampleCard "c2"] emptyStore.

(** A session in which the card ["c1"] is graded nine times, with grades of
    every kind, while ["c2"] is graded in between. *)
Definition nineGradesOfC1 : list (string * ReviewGrade * Z) :=
  [("c1", good, 1000); ("c2", good, 1500); ("c1", again, 2000); ("c1", hard, 3000);
   ("c1", easy, 4000); ("c2", again, 4500); ("c1", good, 5000); ("c1", good, 6000);
   ("c1", again, 7000); ("c1", good, 8000); ("c1", easy, 9000)].

(** Nine exposures, the graduating tenth and two failed reviews. *)
Definition twelveGrades : list (ReviewGrade * Z) :=
  [(good, 1000); (good, 2000); (good, 3000); (good, 4000); (good, 5000);
   (good, 6000); (good, 7000); (good, 8000); (good, 9000); (good, 10000);
   (again, 100000000); (again, 200000000)].

(** A session that takes ["c1"] through its graduation and then fails it over
    and over, and also grades ["c2"] and an id the store does not know. *)
Definition manyAgains : list (string * ReviewGrade * Z) :=
  nineGradesOfC1
  ++ [("c1", good, 10000); ("c1", again, 100000000); ("c1", hard, 200000000);
      ("c1", again, 300000000); ("c1", again, 400000000); ("c1", again, 500000000);
      ("c1", again, 600000000); ("c1", again, 700000000); ("ghost", again, 800000000)].

(** The sample deck after its first card has been graded once. *)
Definition gradedStore : AppState :=
  recordReviewResult "c1" good 1000 sampleStore.

(** A card that reuses the id of a stored card with another text. *)
Definition rewordedCard1 : ReviewCard :=
  concept {| cc_id := "c1";
             cc_unitId := "two-sum";
             cc_source := ai;
             cc_front := "Another question under a known id";
             cc_back := "Another answer.";
             cc_tags := None |}.

(** The first default unit, with its three seed flashcards. *)
Definition twoSumUnit : Unit :=
  {| unit_id := "two-sum";
     unit_title := "Two Sum & Hash Maps";
     flashcards :=
       [ {| fc_id := "fc-1"; fc_unitId := "two-sum";
            fc_front := "Time Complexity of Two Sum with Hash Map";
            fc_back := "O(n)" |};
         {| fc_id := "fc-2"; fc_unitId := "two-sum";
            fc_front := "Space Complexity of Two Sum with Hash Map";
            fc_back := "O(n)" |};
         {| fc_id := "fc-3"; fc_unitId := "two-sum";
            fc_front := "Why use enumerate() in Python?";
            fc_back := "To get both the index and value while looping." |} ] |}.

(** The seed card made from the first of them. *)
Definition seedCard1 : ReviewCard :=
  concept {| cc_id := "fc-1";
             cc_unitId := "two-sum";
             cc_source := seed;
             cc_front := "Time Complexity of Two Sum with Hash Map";
             cc_back := "O(n)";
             cc_tags := Some ["Two Sum & Hash Maps"] |}.

Definition learningState (seen : Z) : ReviewCardState :=
  {| phase := learn; seenCount := seen; dueAt := 0; interval := 0; repetition := 0;
     efactor := 5 # 2; lapses := 0; lastReviewedAt := None |}.

Definition reviewState (due days reps lapsed : Z) : ReviewCardState :=
  {| phase := review; seenCount := 10; dueAt := due; interval := days;
     repetition := reps; efactor := 5 # 2; lapses := lapsed;
     lastReviewedAt := None |}.

(** A card one day into review, after its graduation. *)
Definition graduatedState : ReviewCardState := reviewState 86410000 1 1 0.

(** A review state of the declared type whose interval is zero, as a
    hydrated snapshot may hold. *)
Definition zeroIntervalState : ReviewCardState := reviewState 86410000 0 2 0.

(** The scenario state: [interval = 6], [repetition = 2], [ease = 2.5]. *)
Definition scenarioState : ReviewCardState := reviewState 518410000 6 2 0.

Definition scenarioStore : AppState :=
  {| reviewCards := [sampleCard "c1"];
     reviewCardState := {[ "c1" := scenarioState ]} |}.

Definition threeCards : list ReviewCard :=
  [sampleCard "a"; sampleCard "b"; sampleCard "c"].

(** A learning pool with seen counts 0, 0 and 3. *)
Definition learningStates : gmap string ReviewCardState :=
  <["a" := learningState 0]> (<["b" := learningState 0]> (<["c" := learningState 3]> ∅)).


(** Three cards in review, none of them due at [now = 1000]. *)
Definition futureStates : gmap string ReviewCardState :=
  <["a" := reviewState 86400000 1 1 1]>
    (<["b" := reviewState 172800000 1 1 0]> (<["c" := reviewState 900000000 1 1 0]> ∅)).

(** * Part II, continued: the rest of the store and of the session *)

(** ** Hydration ([client/src/lib/store.ts]) *)

(** [Map.prototype.set] on a [Map<string, ReviewCard>] kept as its entries
    in insertion order: a known key keeps its place and takes the new value,
    a new key goes to the end. *)
Fixpoint Map_set (key : string) (value : ReviewCard) (m : list (string * ReviewCard))
    : list (string * ReviewCard) :=
  match m with
  | [] => [(key, value)]
  | (k, v) :: rest =>
      if decide (k = key) then (k, value) :: rest
      else (k, v) :: Map_set key value rest
  end.

(** [cards.forEach((card) => byId.set(card.id, card))]. *)
Definition Map_setAll (cards : list ReviewCard) (byId : list (string * ReviewCard))
    : list (string * ReviewCard) :=
  foldl (fun byId card => Map_set (card_id card) card byId) byId cards.

(** [hydrateReviewFromServer(cards, states)]: the deck is
    [Array.from(byId.values())] after the local and then the remote cards
    have been set; the states are [{ ...state.reviewCardState, ...states }],
    a union in which the remote entry wins. *)
Definition hydrateReviewFromServer (cards : list ReviewCard)
    (states : gmap string ReviewCardState) (state : AppState) : AppState :=
  let byId := Map_setAll cards (Map_setAll (reviewCards state) []) in
  {| reviewCards := map snd byId;
     reviewCardState := states ∪ reviewCardState state |}.

(** ** The legacy flashcard scheduler ([client/src/lib/store.ts]) *)

Record FlashcardState := mkFlashcardState {
  nextReview : Z;
  fs_interval : Z;
  fs_repetition : Z;
  fs_efactor : Q
}.

(** [{ nextReview: 0, interval: 0, repetition: 0, efactor: 2.5 }]. *)
Definition defaultFlashcardState : FlashcardState :=
  {| nextReview := 0; fs_interval := 0; fs_repetition := 0; fs_efactor := 5 # 2 |}.

(** The entry that [updateFlashcard] writes under [cardId]. *)
Definition updatedFlashcard (current : FlashcardState) (quality : Z) (now : Z)
    : FlashcardState :=
  let '(interval', repetition') :=
    if 3 <=? quality then
      (if fs_repetition current =? 0 then 1
       else if fs_repetition current =? 1 then 6
       else Math_round (double_mul (inject_Z (fs_interval current))
                                   (fs_efactor current)),
       fs_repetition current + 1)
    else (1, 0) in
  {| nextReview := now + interval' * (24 * 60 * 60 * 1000);
     fs_interval := interval';
     fs_repetition := repetition';
     fs_efactor := nextEfactor (fs_efactor current) quality |}.

(** [updateFlashcard(cardId, quality)] on the [flashcardData] field of the
    store, with [now] the value of [Date.now()]. *)
Definition updateFlashcard (cardId : string) (quality : Z) (now : Z)
    (flashcardData : gmap string FlashcardState) : gmap string FlashcardState :=
  let current := default defaultFlashcardState (flashcardData !! cardId) in
  <[cardId := updatedFlashcard current quality now]> flashcardData.

(** ** Unit progress ([client/src/lib/store.ts]) *)

Record UserProgress := mkUserProgress {
  completedUnits : list string;
  unlockedUnits : list string;
  parsonsProgress : gmap string Z
}.

(** [unlockUnit(unitId)] on the [progress] field of the store. *)
Definition unlockUnit (unitId : string) (progress : UserProgress) : UserProgress :=
  {| completedUnits := completedUnits progress;
     unlockedUnits :=
       if bool_decide (unitId ∈ unlockedUnits progress) then unlockedUnits progress
       else unlockedUnits progress ++ [unitId];
     parsonsProgress := parsonsProgress progress |}.

(** [completeUnit(unitId)] on the [progress] field of the store. *)
Definition completeUnit (unitId : string) (progress : UserProgress) : UserProgress :=
  {| completedUnits :=
       if bool_decide (unitId ∈ completedUnits progress) then completedUnits progress
       else completedUnits progress ++ [unitId];
     unlockedUnits := unlockedUnits progress;
     parsonsProgress := parsonsProgress progress |}.

(** ** Tracked problems ([client/src/lib/store.ts]) *)

Inductive ProblemStatus := generating | needs_fix | verified.

Record TrackedProblem := mkTrackedProblem {
  tp_id : string;
  tp_topic : string;
  tp_status : ProblemStatus;
  tp_createdAt : Z;
  tp_unitId : option string
}.

(** [addTrackedProblem(topic)], with [id] the value of [crypto.randomUUID()]
    and [now] the value of [Date.now()]; the action returns [id]. *)
Definition addTrackedProblem (id : string) (now : Z) (topic : string)
    (trackedProblems : list TrackedProblem) : list TrackedProblem :=
  {| tp_id := id; tp_topic := topic; tp_status := generating;
     tp_createdAt := now; tp_unitId := None |} :: trackedProblems.

(** [unitId || p.unitId]: an absent or empty [unitId] keeps the old one. *)
Definition unitIdOr (unitId old : option string) : option string :=
  match unitId with
  | Some u => if bool_decide (u = "") then old else Some u
  | None => old
  end.

(** [updateProblemStatus(id, status, unitId)]. *)
Definition updateProblemStatus (id : string) (status : ProblemStatus)
    (unitId : option string) (trackedProblems : list TrackedProblem)
    : list TrackedProblem :=
  map (fun p =>
         if bool_decide (tp_id p = id)
         then {| tp_id := tp_id p; tp_topic := tp_topic p; tp_status := status;
                 tp_createdAt := tp_createdAt p;
                 tp_unitId := unitIdOr unitId (tp_unitId p) |}
         else p)
      trackedProblems.

(** [removeTrackedProblem(id)]. *)
Definition removeTrackedProblem (id : string) (trackedProblems : list TrackedProblem)
    : list TrackedProblem :=
  filter (fun p => tp_id p <> id) trackedProblems.

(** ** The session's counters and payloads ([InfiniteReviewSession.tsx]) *)

(** [reviewCards.filter((c) => (reviewCardState[c.id]?.phase ?? "learn") === "learn"
    && (reviewCardState[c.id]?.seenCount ?? 0) < 10).length]. *)
Definition learnRemaining (reviewCards : list ReviewCard)
    (reviewCardState : gmap string ReviewCardState) : nat :=
  length (filter (fun c =>
            bool_decide (default learn (phase <$> reviewCardState !! card_id c) = learn)
            && (seenOf reviewCardState c <? 10))
          reviewCards).

(** [reviewCards.filter((c) => (reviewCardState[c.id]?.phase ?? "learn") === "review"
    && (reviewCardState[c.id]?.dueAt ?? 0) <= Date.now()).length]. *)
Definition dueCount (now : Z) (reviewCards : list ReviewCard)
    (reviewCardState : gmap string ReviewCardState) : nat :=
  length (filter (fun c =>
            bool_decide (default learn (phase <$> reviewCardState !! card_id c) = review)
            && (default 0 (dueAt <$> reviewCardState !! card_id c) <=? now))
          reviewCards).

(** The body of a state flush:
    [Object.fromEntries(ids.map((id) => [id, latest[id]]).filter(([, state]) => !!state))],
    [ids] being the pending card ids. *)
Definition statesPayload (ids : list string) (latest : gmap string ReviewCardState)
    : gmap string ReviewCardState :=
  foldl (fun obj entry => <[fst entry := snd entry]> obj) ∅
        (omap (fun id => (fun st => (id, st)) <$> latest !! id) ids).

(** [[copy[i], copy[j]] = [copy[j], copy[i]]] for two indices of the array;
    [None] when an index is out of range, where JavaScript would store
    [undefined]. *)
Definition swapAt {A} (copy : list A) (i j : nat) : option (list A) :=
  match copy !! i, copy !! j with
  | Some ci, Some cj => Some (<[j := ci]> (<[i := cj]> copy))
  | _, _ => None
  end.

(** The loop of [shuffle], [for (let i = copy.length - 1; i > 0; i--)], with
    [rnd call] the value of the [call]-th [Math.random()]. *)
Fixpoint shuffleLoop {A} (rnd : nat -> Q) (call : nat) (i : nat) (copy : list A)
    : option (list A) :=
  match i with
  | O => Some copy
  | S i' =>
      let j := Qfloor (rnd call * inject_Z (Z.of_nat i + 1)) in
      if j <? 0 then None
      else match swapAt copy i (Z.to_nat j) with
           | Some copy' => shuffleLoop rnd (S call) i' copy'
           | None => None
           end
  end.

(** [shuffle(arr)]: a Fisher-Yates shuffle of a copy of [arr]. *)
Definition shuffle {A} (rnd : nat -> Q) (arr : list A) : option (list A) :=
  shuffleLoop rnd 0 (length arr - 1) arr.

(** ** Vocabulary of the further properties *)

(** The stores that the adding and grading actions produce from the store as
    created, the clock never being negative.  Hydration is left out: it
    copies whatever the server sends. *)
Inductive reachable (DEFAULT_UNITS : list Unit) : AppState -> Prop :=
| reach_init : reachable DEFAULT_UNITS (initialAppState DEFAULT_UNITS)
| reach_ensure units state :
    reachable DEFAULT_UNITS state ->
    reachable DEFAULT_UNITS (ensureReviewCardsFromUnits units state)
| reach_add cards state :
    reachable DEFAULT_UNITS state ->
    reachable DEFAULT_UNITS (addGeneratedReviewCards cards state)
| reach_record cardId grade now state :
    reachable DEFAULT_UNITS state -> 0 <= now ->
    reachable DEFAULT_UNITS (recordReviewResult cardId grade now state).

(** What the scheduler keeps true of a card state. *)
Definition wellFormed (st : ReviewCardState) : Prop :=
  match phase st with
  | learn =>
      0 <= seenCount st < 10 /\ interval st = 0 /\ repetition st = 0
      /\ lapses st = 0 /\ efactor st = (5 # 2)%Q
  | review =>
      seenCount st = 10 /\ 0 < dueAt st /\ 0 <= lapses st /\ 0 <= repetition st
      /\ (repetition st <= 1 -> interval st = 1)
      /\ (2 <= repetition st -> 6 <= interval st)
      /\ (13 # 10 <= efactor st)%Q
  end.

(** Every card of the deck has a state, and every state is well formed. *)
Definition storeConsistent (state : AppState) : Prop :=
  (forall c, c ∈ reviewCards state -> is_Some (reviewCardState state !! card_id c))
  /\ (forall (id : string) st, reviewCardState state !! id = Some st -> wellFormed st).

(** The learning pool of a deck, and the bound on how far apart the seen
    counts of its cards are. *)
Definition learningPool (cards : list ReviewCard)
    (stateById : gmap string ReviewCardState) : list ReviewCard :=
  filter (fun c => isLearning stateById c) cards.

Definition evenlySeen (cards : list ReviewCard)
    (stateById : gmap string ReviewCardState) : Prop :=
  forall c c', c ∈ learningPool cards stateById -> c' ∈ learningPool cards stateById ->
               seenOf stateById c <= seenOf stateById c' + 1.

(** The shape of the [byId] map of a hydration: one entry per key, each card
    filed under its own id. *)
Definition keyedById (m : list (string * ReviewCard)) : Prop :=
  NoDup (map fst m) /\ forall k v, (k, v) ∈ m -> card_id v = k.

(** The last card of a list that carries the id [id], if any. *)
Definition lastWithId (id : string) (cards : list ReviewCard) : option ReviewCard :=
  last (filter (fun c => card_id c = id) cards).

(** The failing grades of a list of grading events. *)
Definition failingGrades (events : list (ReviewGrade * Z)) : list (ReviewGrade * Z) :=
  filter (fun ev => qualityFromGrade (fst ev) < 3) events.

(** ** Further sample data *)



(** The state of ["fc-1"] in that store. *)
Definition fc1Graduated : ReviewCardState :=
  {| phase := review; seenCount := 10; dueAt := 86410000; interval := 1;
     repetition := 1; efactor := 5 # 2; lapses := 0; lastReviewedAt := Some 10000 |}.


(** A review state seen through the fields of the legacy flashcard record. *)
Definition asFlashcardState (st : ReviewCardState) : FlashcardState :=
  {| nextReview := dueAt st;
     fs_interval := interval st;
     fs_repetition := repetition st;
     fs_efactor := efactor st |}.

(** * Part III: properties *)

(** ** Tactics for the sample data *)

(** Membership in a list that is written out in full. *)
Ltac in_literal :=
  repeat first [apply list_elem_of_here | apply list_elem_of_further].

(** Non-membership in such a list, its elements told apart by computation. *)
Ltac not_in_literal :=
  let Hin := fresh "Hin" in
  vm_compute; intros Hin;
  repeat (apply elem_of_cons in Hin as [Hin|Hin]; [discriminate Hin |]);
  by apply elem_of_nil in Hin.

(** An order between two rational literals. *)
Ltac q_literal := unfold Qle, Qlt; simpl; lia.

(** ** Rounding to a double *)

Lemma pow2_pos k : (0 < pow2 k)%Q.
Proof. apply Qpower_0_lt. reflexivity. Qed.

Lemma pow2_add a b : (pow2 (a + b) == pow2 a * pow2 b)%Q.
Proof. apply Qpower_plus. discriminate. Qed.

Lemma pow2_succ a : (pow2 (a + 1) == 2 * pow2 a)%Q.
Proof. rewrite pow2_add. unfold pow2 at 2. simpl. ring. Qed.

Lemma pow2_cancel a : (pow2 (- a) * pow2 a == 1)%Q.
Proof. rewrite <- pow2_add. replace (- a + a) with 0 by lia. reflexivity. Qed.

Lemma pow2_le a b : a <= b -> (pow2 a <= pow2 b)%Q.
Proof. intros H. apply Qpower_le_compat_l; [done | discriminate]. Qed.

Lemma pow2_lt_inv a b : (pow2 a < pow2 b)%Q -> a < b.
Proof. intros H. apply (Qpower_lt_compat_l_inv 2); [done | reflexivity]. Qed.

Lemma pow2_inject n : 0 <= n -> (inject_Z (2 ^ n) == pow2 n)%Q.
Proof. intros H. unfold pow2. by rewrite Zpower_Qpower. Qed.

Lemma binade_bounds (x : Q) :
  (0 < x)%Q -> (pow2 (binade x) <= x)%Q /\ (x < pow2 (binade x + 1))%Q.
Proof.
  intros Hx.
  destruct x as [n d]. 
  assert (Hn : 0 < n) by (unfold Qlt in Hx; simpl in Hx; lia).
  unfold binade. simpl Qnum. simpl Qden.
  set (a := Z.log2 n). set (b := Z.log2 (Z.pos d)).
  destruct (Z.log2_spec n Hn) as [Ha1 Ha2]. fold a in Ha1, Ha2.
  destruct (Z.log2_spec (Z.pos d) eq_refl) as [Hb1 Hb2]. fold b in Hb1, Hb2.
  assert (Ha0 : 0 <= a) by apply Z.log2_nonneg.
  assert (Hb0 : 0 <= b) by apply Z.log2_nonneg.
  assert (HxD : ((n # d) * inject_Z (Z.pos d) == inject_Z n)%Q).
  { rewrite (Qmake_Qdiv n d). field. discriminate. }
  assert (HA1 : (pow2 a <= inject_Z n)%Q).
  { rewrite <- pow2_inject by done. by rewrite <- Zle_Qle. }
  assert (HA2 : (inject_Z n < pow2 (a + 1))%Q).
  { rewrite <- pow2_inject by lia. rewrite <- Zlt_Qlt. by rewrite <- Z.add_1_r in Ha2. }
  assert (HB1 : (pow2 b <= inject_Z (Z.pos d))%Q).
  { rewrite <- pow2_inject by done. by rewrite <- Zle_Qle. }
  assert (HB2 : (inject_Z (Z.pos d) < pow2 (b + 1))%Q).
  { rewrite <- pow2_inject by lia. rewrite <- Zlt_Qlt. by rewrite <- Z.add_1_r in Hb2. }
  assert (Hup : (n # d < pow2 (a - b + 1))%Q).
  { apply (Qmult_lt_r _ _ (pow2 b)); [apply pow2_pos |].
    rewrite <- pow2_add. replace (a - b + 1 + b) with (a + 1) by lia.
    apply (Qle_lt_trans _ ((n # d) * inject_Z (Z.pos d))); [| by rewrite HxD].
    apply Qmult_le_l; [done | done]. }
  assert (Hlow : (pow2 (a - b - 1) < n # d)%Q).
  { apply (Qmult_lt_r _ _ (pow2 (b + 1))); [apply pow2_pos |].
    rewrite <- pow2_add. replace (a - b - 1 + (b + 1)) with a by lia.
    apply (Qle_lt_trans _ ((n # d) * inject_Z (Z.pos d))); [by rewrite HxD |].
    apply Qmult_lt_l; [done | done]. }
  destruct (Qle_bool (pow2 (a - b)) (n # d)) eqn:Hk.
  - apply Qle_bool_iff in Hk. by split.
  - split.
    + by apply Qlt_le_weak.
    + replace (a - b - 1 + 1) with (a - b) by lia.
      apply Qnot_le_lt. intros Hle. apply Qle_bool_iff in Hle. congruence.
Qed.

Lemma binade_unique (x : Q) (l : Z) :
  (pow2 l <= x)%Q -> (x < pow2 (l + 1))%Q -> binade x = l.
Proof.
  intros Hl1 Hl2.
  assert (Hx : (0 < x)%Q) by (apply (Qlt_le_trans _ (pow2 l)); [apply pow2_pos | done]).
  destruct (binade_bounds x Hx) as [Hb1 Hb2].
  assert (H1 : binade x < l + 1)
    by (apply pow2_lt_inv; by apply (Qle_lt_trans _ x)).
  assert (H2 : l < binade x + 1)
    by (apply pow2_lt_inv; by apply (Qle_lt_trans _ x)).
  lia.
Qed.

Lemma binade_proper (x y : Q) : (0 < x)%Q -> (x == y)%Q -> binade x = binade y.
Proof.
  intros Hx Heq. symmetry. destruct (binade_bounds x Hx) as [H1 H2].
  apply binade_unique; by rewrite <- Heq.
Qed.

Lemma roundHalfEven_bounds (y : Q) :
  (y - (1 # 2) <= inject_Z (roundHalfEven y))%Q
  /\ (inject_Z (roundHalfEven y) <= y + (1 # 2))%Q.
Proof.
  unfold roundHalfEven.
  pose proof (Qfloor_le y) as Hf1. pose proof (Qlt_floor y) as Hf2.
  rewrite inject_Z_plus in Hf2. change (inject_Z 1) with 1%Q in Hf2.
  destruct (Qlt_le_dec _ _) as [Hlt|Hge]; [split; lra |].
  destruct (Qlt_le_dec _ _) as [Hlt'|Hge'].
  - rewrite inject_Z_plus. change (inject_Z 1) with 1%Q. split; lra.
  - destruct (Z.even _).
    + split; lra.
    + rewrite inject_Z_plus. change (inject_Z 1) with 1%Q. split; lra.
Qed.

Lemma roundHalfEven_proper (x y : Q) : (x == y)%Q -> roundHalfEven x = roundHalfEven y.
Proof.
  intros Heq. unfold roundHalfEven. rewrite (Qfloor_comp x y Heq).
  destruct (Qlt_le_dec (x - _) _) as [H1|H1], (Qlt_le_dec (y - _) _) as [H2|H2];
    try reflexivity; try (exfalso; rewrite Heq in H1; lra).
  destruct (Qlt_le_dec _ (x - _)) as [H3|H3], (Qlt_le_dec _ (y - _)) as [H4|H4];
    try reflexivity; exfalso; rewrite Heq in H3; lra.
Qed.

Lemma roundHalfEven_Z (m : Z) : roundHalfEven (inject_Z m) = m.
Proof.
  unfold roundHalfEven. rewrite Qfloor_Z.
  destruct (Qlt_le_dec _ _) as [H|H]; [reflexivity | exfalso; lra].
Qed.

Lemma pow2_52 : (pow2 52 == 4503599627370496)%Q.
Proof. reflexivity. Qed.

Lemma pow2_53 : (pow2 53 == 9007199254740992)%Q.
Proof. reflexivity. Qed.

Lemma scaled_back (x : Q) (e : Z) : (x * pow2 (- e) * pow2 e == x)%Q.
Proof. rewrite <- Qmult_assoc, pow2_cancel. ring. Qed.

Lemma scaled_range (x : Q) :
  (0 < x)%Q ->
  (pow2 52 <= x * pow2 (- (binade x - 52)))%Q
  /\ (x * pow2 (- (binade x - 52)) < pow2 53)%Q.
Proof.
  intros Hx. destruct (binade_bounds x Hx) as [H1 H2].
  set (e := binade x - 52) in *.
  assert (Hp : (0 < pow2 (- e))%Q) by apply pow2_pos.
  split.
  - replace 52 with (binade x + - e) by lia. rewrite pow2_add.
    by apply Qmult_le_r.
  - replace 53 with (binade x + 1 + - e) by lia. rewrite pow2_add.
    by apply Qmult_lt_r.
Qed.

Lemma roundPositive_eq (x : Q) :
  (roundPositive x
   == inject_Z (roundHalfEven (x * pow2 (- (binade x - 52)))) * pow2 (binade x - 52))%Q.
Proof. unfold roundPositive. apply Qred_correct. Qed.

Lemma roundPositive_mantissa (x : Q) :
  (0 < x)%Q ->
  2 ^ 52 <= roundHalfEven (x * pow2 (- (binade x - 52))) <= 2 ^ 53.
Proof.
  intros Hx. destruct (scaled_range x Hx) as [H1 H2].
  destruct (roundHalfEven_bounds (x * pow2 (- (binade x - 52)))) as [H3 H4].
  set (m := roundHalfEven _) in *. set (y := (x * _)%Q) in *.
  rewrite pow2_52 in H1. rewrite pow2_53 in H2.
  split.
  - assert (H : 2 ^ 52 - 1 < m); [| lia].
    rewrite Zlt_Qlt. change (inject_Z (2 ^ 52 - 1)) with (4503599627370495%Q). lra.
  - assert (H : m < 2 ^ 53 + 1); [| lia].
    rewrite Zlt_Qlt. change (inject_Z (2 ^ 53 + 1)) with (9007199254740993%Q). lra.
Qed.

Lemma roundPositive_error (x : Q) :
  (0 < x)%Q ->
  (x * (1 - ulpError) <= roundPositive x)%Q
  /\ (roundPositive x <= x * (1 + ulpError))%Q.
Proof.
  intros Hx. rewrite roundPositive_eq.
  destruct (scaled_range x Hx) as [H1 _].
  destruct (roundHalfEven_bounds (x * pow2 (- (binade x - 52)))) as [H3 H4].
  pose proof (scaled_back x (binade x - 52)) as Hback.
  set (e := binade x - 52) in *. set (y := (x * pow2 (- e))%Q) in *.
  set (m := roundHalfEven y) in *.
  rewrite pow2_52 in H1. unfold ulpError.
  assert (Hp : (0 <= pow2 e)%Q) by apply Qlt_le_weak, pow2_pos.
  assert (Hlo : (x * (1 - (1 # 9007199254740992))
                 == y * (1 - (1 # 9007199254740992)) * pow2 e)%Q).
  { rewrite <- Hback at 1. ring. }
  assert (Hhi : (x * (1 + (1 # 9007199254740992))
                 == y * (1 + (1 # 9007199254740992)) * pow2 e)%Q).
  { rewrite <- Hback at 1. ring. }
  rewrite Hlo, Hhi.
  split; (apply Qmult_le_compat_r; [lra | done]).
Qed.

Lemma roundPositive_pos (x : Q) : (0 < x)%Q -> (0 < roundPositive x)%Q.
Proof.
  intros Hx. destruct (roundPositive_error x Hx) as [H _].
  apply (Qlt_le_trans _ (x * (1 - ulpError))); [| done].
  apply Qmult_lt_0_compat; [done | reflexivity].
Qed.

Lemma roundPositive_proper (x y : Q) :
  (0 < x)%Q -> (x == y)%Q -> roundPositive x = roundPositive y.
Proof.
  intros Hx Heq. unfold roundPositive.
  rewrite <- (binade_proper x y Hx Heq).
  rewrite (roundHalfEven_proper (x * pow2 (- (binade x - 52)))
             (y * pow2 (- (binade x - 52)))); [reflexivity |].
  apply Qmult_comp; [exact Heq | reflexivity].
Qed.

(** A number [m * 2^e] with a mantissa [m] of 53 bits is a double. *)
Lemma roundPositive_mantissa_exponent (z : Q) (m e : Z) :
  2 ^ 52 <= m <= 2 ^ 53 -> (z == inject_Z m * pow2 e)%Q ->
  roundPositive z = Qred (inject_Z m * pow2 e).
Proof.
  intros [Hm1 Hm2] Hz.
  assert (Hm1' : (pow2 52 <= inject_Z m)%Q).
  { rewrite pow2_52. change 4503599627370496%Q with (inject_Z (2 ^ 52)).
    by rewrite <- Zle_Qle. }
  assert (Hpe : (0 < pow2 e)%Q) by apply pow2_pos.
  destruct (decide (m = 2 ^ 53)) as [->|Hne].
  - assert (Hb : binade z = 53 + e).
    { apply binade_unique; rewrite Hz.
      + rewrite pow2_add. apply Qmult_le_r; [done |]. rewrite pow2_53. apply Qle_refl.
      + replace (53 + e + 1) with (54 + e) by lia. rewrite pow2_add.
        apply Qmult_lt_r; [done |]. reflexivity. }
    unfold roundPositive. rewrite Hb.
    replace (53 + e - 52) with (e + 1) by lia.
    apply Qred_complete.
    rewrite (roundHalfEven_proper _ (inject_Z (2 ^ 52))).
    + rewrite roundHalfEven_Z, pow2_succ.
      change (inject_Z (2 ^ 52)) with 4503599627370496%Q.
      change (inject_Z (2 ^ 53)) with 9007199254740992%Q. ring.
    + rewrite Hz. replace (- (e + 1)) with (- e + - (1)) by lia.
      rewrite pow2_add.
      transitivity (inject_Z (2 ^ 53) * pow2 (- (1)) * (pow2 (- e) * pow2 e))%Q; [ring |].
      rewrite pow2_cancel. reflexivity.
  - assert (Hb : binade z = 52 + e).
    { apply binade_unique; rewrite Hz.
      + rewrite pow2_add. by apply Qmult_le_r.
      + replace (52 + e + 1) with (53 + e) by lia. rewrite pow2_add.
        apply Qmult_lt_r; [done |]. rewrite pow2_53.
        change 9007199254740992%Q with (inject_Z (2 ^ 53)).
        rewrite <- Zlt_Qlt. lia. }
    unfold roundPositive. rewrite Hb.
    replace (52 + e - 52) with e by lia.
    rewrite (roundHalfEven_proper _ (inject_Z m)); [by rewrite roundHalfEven_Z |].
    rewrite Hz.
    transitivity (inject_Z m * (pow2 (- e) * pow2 e))%Q; [ring |].
    rewrite pow2_cancel. ring.
Qed.

Lemma roundPositive_idempotent (x : Q) :
  (0 < x)%Q -> roundPositive (roundPositive x) = roundPositive x.
Proof.
  intros Hx.
  rewrite (roundPositive_mantissa_exponent (roundPositive x)
             (roundHalfEven (x * pow2 (- (binade x - 52)))) (binade x - 52)).
  - reflexivity.
  - by apply roundPositive_mantissa.
  - apply roundPositive_eq.
Qed.

Lemma double_pos (x : Q) : (0 < x)%Q -> double x = roundPositive x.
Proof.
  destruct x as [[|n|n] d]; unfold Qlt; simpl; intros H; try lia. reflexivity.
Qed.

Lemma double_neg (x : Q) : (x < 0)%Q -> double x = (- roundPositive (- x))%Q.
Proof.
  destruct x as [[|n|n] d]; unfold Qlt; simpl; intros H; try lia. reflexivity.
Qed.

Lemma double_zero (x : Q) : (x == 0)%Q -> double x = 0%Q.
Proof.
  destruct x as [[|n|n] d]; unfold Qeq; simpl; intros H; try lia. reflexivity.
Qed.

Lemma double_proper (x y : Q) : (x == y)%Q -> double x = double y.
Proof.
  intros Heq.
  destruct (Q_dec x 0) as [[Hneg|Hpos]|Hzero].
  - rewrite (double_neg x Hneg), (double_neg y) by (by rewrite <- Heq).
    f_equal. apply roundPositive_proper; [lra | by rewrite Heq].
  - rewrite (double_pos x Hpos), (double_pos y) by (by rewrite <- Heq).
    by apply roundPositive_proper.
  - rewrite (double_zero x Hzero), (double_zero y) by (by rewrite <- Heq).
    reflexivity.
Qed.

Lemma double_idempotent (x : Q) : double (double x) = double x.
Proof.
  destruct (Q_dec x 0) as [[Hneg|Hpos]|Hzero].
  - rewrite (double_neg x Hneg).
    assert (Hr : (0 < roundPositive (- x))%Q) by (apply roundPositive_pos; lra).
    rewrite double_neg by lra. f_equal.
    rewrite (roundPositive_proper (- - roundPositive (- x)) (roundPositive (- x)))
      by (lra || ring).
    apply roundPositive_idempotent. lra.
  - rewrite (double_pos x Hpos).
    rewrite double_pos by (by apply roundPositive_pos).
    by apply roundPositive_idempotent.
  - rewrite (double_zero x Hzero). reflexivity.
Qed.

Lemma double_error (x : Q) :
  (0 <= x)%Q ->
  (x * (1 - ulpError) <= double x)%Q /\ (double x <= x * (1 + ulpError))%Q.
Proof.
  intros Hx. destruct (Qle_lt_or_eq _ _ Hx) as [Hpos|Hzero].
  - rewrite (double_pos x Hpos). by apply roundPositive_error.
  - rewrite (double_zero x) by (by symmetry). rewrite <- Hzero. split; lra.
Qed.

Lemma double_lower (c x : Q) :
  (0 <= c)%Q -> (c <= x)%Q -> (c * (1 - ulpError) <= double x)%Q.
Proof.
  intros Hc Hx. destruct (double_error x) as [H _]; [lra |].
  apply (Qle_trans _ (x * (1 - ulpError))); [| done].
  apply Qmult_le_compat_r; [done | discriminate].
Qed.

Lemma double_mul_one (x : Q) : double_mul (double x) 1 = double x.
Proof.
  unfold double_mul. rewrite (double_proper (double x * 1) (double x)) by ring.
  apply double_idempotent.
Qed.

(** The literals of the scheduler as doubles. *)
Lemma double_1_3 : double (13 # 10) = (5854679515581645 # 4503599627370496)%Q.
Proof. vm_compute. reflexivity. Qed.

Lemma double_1_15 : double (23 # 20) = (2589569785738035 # 2251799813685248)%Q.
Proof. vm_compute. reflexivity. Qed.

Lemma bonus_ge_one (quality : Z) :
  (1 <= (if quality =? 5 then double (23 # 20) else 1))%Q.
Proof.
  destruct (quality =? 5); [rewrite double_1_15; q_literal | apply Qle_refl].
Qed.

(** The ease term of each grade, evaluated in doubles: 0.1 for Easy, 0 for
    Good, -0.32000000000000006 for Hard and -0.54 for Again. *)
Lemma easeDelta_easy : easeDelta 5 = (3602879701896397 # 36028797018963968)%Q.
Proof. vm_compute. reflexivity. Qed.

Lemma easeDelta_good : easeDelta 4 = 0%Q.
Proof. vm_compute. reflexivity. Qed.

Lemma easeDelta_hard : easeDelta 2 = (- (1441151880758559 # 4503599627370496))%Q.
Proof. vm_compute. reflexivity. Qed.

Lemma easeDelta_again : easeDelta 1 = (- (607985949695017 # 1125899906842624))%Q.
Proof. vm_compute. reflexivity. Qed.

(** ** Lookups after grading *)

Lemma recordReviewResult_lookup cardId grade now state :
  reviewCardState (recordReviewResult cardId grade now state) !! cardId
  = Some (gradedState (default initialReviewState (reviewCardState state !! cardId))
                      grade now).
Proof. unfold recordReviewResult; simpl. apply lookup_insert_eq. Qed.

Lemma recordReviewResult_lookup_ne cardId other grade now state :
  cardId ≠ other ->
  reviewCardState (recordReviewResult cardId grade now state) !! other
  = reviewCardState state !! other.
Proof. intros Hne. unfold recordReviewResult; simpl. by apply lookup_insert_ne. Qed.

Lemma recordReviewResult_cards cardId grade now state :
  reviewCards (recordReviewResult cardId grade now state) = reviewCards state.
Proof. reflexivity. Qed.

(** Grading other cards in between does not touch a card: its state after a
    session is its state after its own events. *)
Lemma recordEvents_lookup cardId events : forall state st,
  reviewCardState state !! cardId = Some st ->
  reviewCardState (recordEvents events state) !! cardId
  = Some (gradeSeq st (ownEvents cardId events)).
Proof.
  induction events as [|[[id g] now] events IH]; intros state st Hst.
  - exact Hst.
  - unfold ownEvents. rewrite filter_cons. simpl recordEvents.
    destruct (decide (((id, g, now).1).1 = cardId)) as [Heq|Hne]; simpl in *.
    + subst id. apply (IH (recordReviewResult cardId g now state)).
      rewrite recordReviewResult_lookup, Hst. reflexivity.
    + apply (IH (recordReviewResult id g now state)).
      by rewrite recordReviewResult_lookup_ne.
Qed.

(** ** The learning phase *)

(** While fewer than ten exposures have been recorded the card stays in the
    learning phase and counts each of them. *)
Lemma gradeSeq_learning events : forall st,
  phase st = learn ->
  seenCount st + Z.of_nat (length events) < 10 ->
  phase (gradeSeq st events) = learn
  /\ seenCount (gradeSeq st events) = seenCount st + Z.of_nat (length events).
Proof.
  induction events as [|ev events IH]; intros st Hph Hlt; simpl in *.
  - split; [done | lia].
  - assert (Hstep : gradedState st ev.1 ev.2 = learnStep st ev.2)
      by (unfold gradedState; by rewrite Hph).
    rewrite Hstep.
    assert (Hno : (10 <=? seenCount st + 1) = false) by (apply Z.leb_gt; lia).
    destruct (IH (learnStep st ev.2)) as [IH1 IH2].
    + unfold learnStep; simpl. by rewrite Hno.
    + unfold learnStep; simpl. lia.
    + split; [exact IH1 |]. rewrite IH2. unfold learnStep; simpl. lia.
Qed.

(** C1. A card that starts in the learning phase with [seenCount = 0] stays
    in Learning, due immediately ([dueAt = now]), after each of its first
    nine grades whatever the grades are, and after exactly ten grades it is
    in Review with [interval = 1], [repetition = 1] and
    [dueAt = now + 86_400_000], [now] being the time of the last grade.  The
    session may grade other cards in between; [ownEvents] counts the earlier
    grades of the card itself. *)
Theorem graduation_after_ten_grades
    (cardId : string) (state : AppState) (st0 : ReviewCardState)
    (events : list (string * ReviewGrade * Z)) (grade : ReviewGrade) (now : Z) :
  reviewCardState state !! cardId = Some st0 ->
  phase st0 = learn ->
  seenCount st0 = 0 ->
  exists st,
    reviewCardState
      (recordReviewResult cardId grade now (recordEvents events state)) !! cardId
    = Some st
    /\ ((length (ownEvents cardId events) < 9)%nat ->
        phase st = learn /\ dueAt st = now
        /\ seenCount st = Z.of_nat (length (ownEvents cardId events)) + 1)
    /\ (length (ownEvents cardId events) = 9%nat ->
        phase st = review /\ interval st = 1 /\ repetition st = 1
        /\ dueAt st = now + 86400000).
Proof.
  intros Hst Hph Hseen.
  rewrite recordReviewResult_lookup, (recordEvents_lookup _ _ _ _ Hst); simpl.
  eexists; split; [reflexivity |].
  set (mine := ownEvents cardId events).
  split; intros Hlen.
  - destruct (gradeSeq_learning mine st0 Hph) as [Hp Hs]; [lia |].
    unfold gradedState. rewrite Hp. unfold learnStep; simpl.
    assert (Hno : (10 <=? seenCount (gradeSeq st0 mine) + 1) = false)
      by (apply Z.leb_gt; lia).
    rewrite Hno. repeat split; lia.
  - destruct (gradeSeq_learning mine st0 Hph) as [Hp Hs]; [lia |].
    unfold gradedState. rewrite Hp. unfold learnStep; simpl.
    assert (Hyes : (10 <=? seenCount (gradeSeq st0 mine) + 1) = true)
      by (apply Z.leb_le; lia).
    rewrite Hyes. repeat split; reflexivity.
Qed.

Lemma graduation_after_ten_grades_witness :
  exists st,
    reviewCardState
      (recordReviewResult "c1" again 10000 (recordEvents nineGradesOfC1 sampleStore))
      !! "c1"
    = Some st
    /\ ((length (ownEvents "c1" nineGradesOfC1) < 9)%nat ->
        phase st = learn /\ dueAt st = 10000
        /\ seenCount st = Z.of_nat (length (ownEvents "c1" nineGradesOfC1)) + 1)
    /\ (length (ownEvents "c1" nineGradesOfC1) = 9%nat ->
        phase st = review /\ interval st = 1 /\ repetition st = 1
        /\ dueAt st = 10000 + 86400000).
Proof.
  apply (graduation_after_ten_grades "c1" sampleStore initialReviewState
           nineGradesOfC1 again 10000); reflexivity.
Defined.

Lemma gradedState_learning_grade_irrelevant st g1 g2 now :
  phase st = learn -> gradedState st g1 now = gradedState st g2 now.
Proof. intros Hph. unfold gradedState. by rewrite Hph. Qed.

(** C10. While a card is in the learning phase the grade is ignored: for any
    two grades given at the same time [now] the store after
    [recordReviewResult] is the same, the stored card state included. *)
Theorem learning_ignores_grade
    (cardId : string) (state : AppState) (st : ReviewCardState)
    (g1 g2 : ReviewGrade) (now : Z) :
  reviewCardState state !! cardId = Some st ->
  phase st = learn ->
  recordReviewResult cardId g1 now state = recordReviewResult cardId g2 now state
  /\ gradedState st g1 now = gradedState st g2 now.
Proof.
  intros Hst Hph. split.
  - unfold recordReviewResult. rewrite Hst; simpl.
    by rewrite (gradedState_learning_grade_irrelevant st g1 g2 now Hph).
  - by apply gradedState_learning_grade_irrelevant.
Qed.

Lemma learning_ignores_grade_witness :
  recordReviewResult "c1" again 5000 sampleStore
  = recordReviewResult "c1" easy 5000 sampleStore
  /\ gradedState initialReviewState again 5000
     = gradedState initialReviewState easy 5000.
Proof.
  apply (learning_ignores_grade "c1" sampleStore initialReviewState again easy 5000);
    reflexivity.
Defined.

(** ** Grading an id without a stored state *)

(** C2, as the code has it.  Grading a card id that has no CardState does not
    throw: [recordReviewResult] falls back to a fresh initial state, takes
    the learning step from it and stores the result under that id
    ([seenCount = 1], [dueAt = now], [lastReviewedAt = now], the other fields
    as in the initial state); the card list and every other state are kept. *)
Theorem grading_unknown_id_creates_state
    (cardId : string) (grade : ReviewGrade) (now : Z) (state : AppState) :
  reviewCardState state !! cardId = None ->
  recordReviewResult cardId grade now state
  = {| reviewCards := reviewCards state;
       reviewCardState :=
         <[cardId := {| phase := learn;
                        seenCount := 1;
                        dueAt := now;
                        interval := 0;
                        repetition := 0;
                        efactor := 5 # 2;
                        lapses := 0;
                        lastReviewedAt := Some now |}]> (reviewCardState state) |}.
Proof.
  intros Hnone. unfold recordReviewResult. rewrite Hnone. reflexivity.
Qed.

Lemma grading_unknown_id_creates_state_witness :
  recordReviewResult "ghost" good 1000 sampleStore
  = {| reviewCards := reviewCards sampleStore;
       reviewCardState :=
         <["ghost" := {| phase := learn;
                         seenCount := 1;
                         dueAt := 1000;
                         interval := 0;
                         repetition := 0;
                         efactor := 5 # 2;
                         lapses := 0;
                         lastReviewedAt := Some 1000 |}]> (reviewCardState sampleStore) |}.
Proof.
  apply (grading_unknown_id_creates_state "ghost" good 1000 sampleStore).
  reflexivity.
Defined.

(** The specification has the grading of an id without a state fail and leave
    the store as it was.  The sample deck has no state for ["ghost"]; after
    grading that id the store holds one, so the call went through and the
    store changed. *)
Lemma grading_unknown_id_changes_store :
  reviewCardState sampleStore !! "ghost" = None
  /\ recordReviewResult "ghost" good 1000 sampleStore <> sampleStore
  /\ reviewCardState (recordReviewResult "ghost" good 1000 sampleStore) !! "ghost"
     = Some (learnStep initialReviewState 1000).
Proof.
  split; [reflexivity |]. split.
  - intros Heq.
    assert (H : reviewCardState (recordReviewResult "ghost" good 1000 sampleStore) !! "ghost"
                = reviewCardState sampleStore !! "ghost") by (by rewrite Heq).
    rewrite recordReviewResult_lookup in H. discriminate H.
  - by rewrite recordReviewResult_lookup.
Qed.

(** ** Adding cards *)

Lemma elem_of_idSet (id : string) (cards : list ReviewCard) :
  id ∈ idSet cards <-> id ∈ map card_id cards.
Proof. unfold idSet. by rewrite elem_of_list_to_set. Qed.

Lemma filter_none {A} (P : A -> Prop) `{forall x, Decision (P x)} (l : list A) :
  (forall x, x ∈ l -> ~ P x) -> filter P l = [].
Proof.
  intros Hnone. destruct (filter P l) as [|x l'] eqn:Hf; [done |].
  assert (Hx : x ∈ filter P l) by (rewrite Hf; apply list_elem_of_here).
  apply list_elem_of_filter in Hx as [HP Hx]. by destruct (Hnone x Hx).
Qed.

Lemma withInitialStates_lookup additions : forall states (id : string),
  withInitialStates additions states !! id
  = if decide (id ∈ map card_id additions) then Some initialReviewState
    else states !! id.
Proof.
  induction additions as [|c additions IH]; intros states id.
  - destruct (decide (id ∈ map card_id [])) as [Hin|Hin]; [|done].
    by apply elem_of_nil in Hin.
  - unfold withInitialStates in *. simpl foldl. rewrite IH.
    rewrite map_cons.
    destruct (decide (id ∈ map card_id additions)) as [Hin|Hin],
             (decide (id ∈ card_id c :: map card_id additions)) as [Hin'|Hin'];
      try done.
    + exfalso. apply Hin'. by apply list_elem_of_further.
    + apply elem_of_cons in Hin' as [->|Hin']; [|done].
      by rewrite lookup_insert_eq.
    + rewrite lookup_insert_ne; [done |].
      intros Heq. apply Hin'. rewrite <- Heq. apply list_elem_of_here.
Qed.

(** The two adding actions are one action on two sources of cards. *)
Lemma ensureReviewCardsFromUnits_as_add units state :
  ensureReviewCardsFromUnits units state
  = addGeneratedReviewCards (seedCardsFromUnits units) state.
Proof. reflexivity. Qed.

(** What [addGeneratedReviewCards] returns, without the early exit: with no
    new card the appended list and the rewritten states are the old ones. *)
Lemma addGeneratedReviewCards_unfold cards state :
  let unique := filter (fun c => card_id c ∉ idSet (reviewCards state)) cards in
  reviewCards (addGeneratedReviewCards cards state) = reviewCards state ++ unique
  /\ reviewCardState (addGeneratedReviewCards cards state)
     = withInitialStates unique (reviewCardState state).
Proof.
  unfold addGeneratedReviewCards.
  destruct (filter _ cards) as [|c unique]; simpl.
  - by rewrite app_nil_r.
  - done.
Qed.

Lemma addGeneratedReviewCards_new cards state c :
  c ∈ cards ->
  card_id c ∉ map card_id (reviewCards state) ->
  c ∈ reviewCards (addGeneratedReviewCards cards state)
  /\ reviewCardState (addGeneratedReviewCards cards state) !! card_id c
     = Some initialReviewState.
Proof.
  intros Hc Hnew.
  destruct (addGeneratedReviewCards_unfold cards state) as [-> ->].
  assert (Hu : c ∈ filter (fun c => card_id c ∉ idSet (reviewCards state)) cards).
  { apply list_elem_of_filter. split; [|done]. by rewrite elem_of_idSet. }
  split.
  - apply elem_of_app. by right.
  - rewrite withInitialStates_lookup. case_decide as Hin; [done |].
    exfalso. apply Hin. apply list_elem_of_fmap. by exists c.
Qed.

Lemma addGeneratedReviewCards_old cards state (id : string) :
  id ∈ map card_id (reviewCards state) ->
  reviewCardState (addGeneratedReviewCards cards state) !! id
  = reviewCardState state !! id
  /\ filter (fun c => card_id c = id) (reviewCards (addGeneratedReviewCards cards state))
     = filter (fun c => card_id c = id) (reviewCards state).
Proof.
  intros Hold.
  destruct (addGeneratedReviewCards_unfold cards state) as [-> ->].
  split.
  - rewrite withInitialStates_lookup. case_decide as Hin; [|done].
    exfalso. apply list_elem_of_fmap in Hin as (c & -> & Hc).
    apply list_elem_of_filter in Hc as [Hc _]. apply Hc. by apply elem_of_idSet.
  - rewrite filter_app, (filter_none (fun c => card_id c = id) (filter _ cards)).
    + by rewrite app_nil_r.
    + intros c Hc Heq.
      apply list_elem_of_filter in Hc as [Hc _]. apply Hc.
      apply elem_of_idSet. by rewrite Heq.
Qed.

Lemma addGeneratedReviewCards_all_known cards state :
  (forall c, c ∈ cards -> card_id c ∈ map card_id (reviewCards state)) ->
  addGeneratedReviewCards cards state = state.
Proof.
  intros Hall. unfold addGeneratedReviewCards.
  rewrite (filter_none (fun c => card_id c ∉ idSet (reviewCards state)) cards).
  - reflexivity.
  - intros c Hc Hnot. apply Hnot, elem_of_idSet. by apply Hall.
Qed.

Lemma addGeneratedReviewCards_ids cards state c :
  c ∈ cards ->
  card_id c ∈ map card_id (reviewCards (addGeneratedReviewCards cards state)).
Proof.
  intros Hc.
  destruct (decide (card_id c ∈ map card_id (reviewCards state))) as [Hold|Hnew].
  - destruct (addGeneratedReviewCards_unfold cards state) as [-> _].
    rewrite map_app. apply elem_of_app. by left.
  - apply list_elem_of_fmap. exists c. split; [done |].
    by apply addGeneratedReviewCards_new.
Qed.

(** C3, as the code has it.  A card that enters the store, whether from a
    generated batch, from the seed cards of the units or with the store's
    initial seed deck, gets the state [phase = learn], [seenCount = 0],
    [dueAt = 0], [interval = 0], [repetition = 0], [efactor = 2.5],
    [lapses = 0] and no [lastReviewedAt]: the due time is the constant [0],
    the clock is not read. *)
Theorem new_card_gets_initial_state
    (c : ReviewCard) (cards : list ReviewCard) (units : list Unit) (state : AppState) :
  card_id c ∉ map card_id (reviewCards state) ->
  let fresh := {| phase := learn;
                  seenCount := 0;
                  dueAt := 0;
                  interval := 0;
                  repetition := 0;
                  efactor := 5 # 2;
                  lapses := 0;
                  lastReviewedAt := None |} in
  (c ∈ cards ->
   c ∈ reviewCards (addGeneratedReviewCards cards state)
   /\ reviewCardState (addGeneratedReviewCards cards state) !! card_id c = Some fresh)
  /\ (c ∈ seedCardsFromUnits units ->
      c ∈ reviewCards (ensureReviewCardsFromUnits units state)
      /\ reviewCardState (ensureReviewCardsFromUnits units state) !! card_id c
         = Some fresh)
  /\ (c ∈ seedCardsFromUnits units ->
      c ∈ reviewCards (initialAppState units)
      /\ reviewCardState (initialAppState units) !! card_id c = Some fresh).
Proof.
  intros Hnew fresh. repeat split.
  - by apply addGeneratedReviewCards_new.
  - by apply addGeneratedReviewCards_new.
  - rewrite ensureReviewCardsFromUnits_as_add. by apply addGeneratedReviewCards_new.
  - rewrite ensureReviewCardsFromUnits_as_add. by apply addGeneratedReviewCards_new.
  - done.
  - unfold initialAppState; simpl. rewrite withInitialStates_lookup.
    destruct (decide _) as [Hin|Hin]; [done |].
    exfalso. apply Hin. apply list_elem_of_fmap. by exists c.
Qed.

Lemma new_card_gets_initial_state_witness :
  let fresh := {| phase := learn; seenCount := 0; dueAt := 0; interval := 0;
                  repetition := 0; efactor := 5 # 2; lapses := 0;
                  lastReviewedAt := None |} in
  (seedCard1 ∈ reviewCards (addGeneratedReviewCards [sampleCard "c3"; seedCard1] sampleStore)
   /\ reviewCardState (addGeneratedReviewCards [sampleCard "c3"; seedCard1] sampleStore)
        !! "fc-1" = Some fresh)
  /\ (seedCard1 ∈ reviewCards (ensureReviewCardsFromUnits [twoSumUnit] sampleStore)
      /\ reviewCardState (ensureReviewCardsFromUnits [twoSumUnit] sampleStore) !! "fc-1"
         = Some fresh)
  /\ (seedCard1 ∈ reviewCards (initialAppState [twoSumUnit])
      /\ reviewCardState (initialAppState [twoSumUnit]) !! "fc-1" = Some fresh).
Proof.
  destruct (new_card_gets_initial_state seedCard1 [sampleCard "c3"; seedCard1]
              [twoSumUnit] sampleStore) as (Hadd & Hensure & Hinit).
  - not_in_literal.
  - split; [| split].
    + apply Hadd. in_literal.
    + apply Hensure. in_literal.
    + apply Hinit. in_literal.
Defined.

(** The specification's fresh state is due at its creation time.  A card
    generated at [now = 1_700_000_000_000] is stored with [dueAt = 0]
    instead. *)
Lemma new_card_not_due_at_creation_time :
  ("c3" ∉ map card_id (reviewCards sampleStore))
  /\ reviewCardState (addGeneratedReviewCards [sampleCard "c3"] sampleStore) !! "c3"
     = Some initialReviewState
  /\ dueAt initialReviewState = 0
  /\ (reviewCardState (addGeneratedReviewCards [sampleCard "c3"] sampleStore) !! "c3")
     <> Some (specInitialState 1700000000000).
Proof.
  split; [not_in_literal |]. split; [reflexivity |]. split; [reflexivity |].
  intros Heq.
  assert (H : reviewCardState (addGeneratedReviewCards [sampleCard "c3"] sampleStore)
                !! "c3" = Some initialReviewState) by reflexivity.
  rewrite H in Heq. discriminate Heq.
Qed.

(** C9. [addGeneratedReviewCards] (and [ensureReviewCardsFromUnits], the same
    action on the seed cards of the units) is idempotent on card ids: for an
    id already in the store neither the stored state nor the stored cards of
    that id change, whatever the batch holds; a batch of known ids leaves
    the whole store as it was; adding a batch a second time changes nothing;
    and only a card whose id is not yet in the store is inserted, with a
    fresh initial state. *)
Theorem upsert_is_idempotent
    (cards : list ReviewCard) (units : list Unit) (state : AppState) (id : string) :
  id ∈ map card_id (reviewCards state) ->
  (reviewCardState (addGeneratedReviewCards cards state) !! id
   = reviewCardState state !! id
   /\ filter (fun c => card_id c = id) (reviewCards (addGeneratedReviewCards cards state))
      = filter (fun c => card_id c = id) (reviewCards state))
  /\ (reviewCardState (ensureReviewCardsFromUnits units state) !! id
      = reviewCardState state !! id
      /\ filter (fun c => card_id c = id)
                (reviewCards (ensureReviewCardsFromUnits units state))
         = filter (fun c => card_id c = id) (reviewCards state))
  /\ ((forall c, c ∈ cards -> card_id c ∈ map card_id (reviewCards state)) ->
      addGeneratedReviewCards cards state = state)
  /\ addGeneratedReviewCards cards (addGeneratedReviewCards cards state)
     = addGeneratedReviewCards cards state
  /\ ensureReviewCardsFromUnits units (ensureReviewCardsFromUnits units state)
     = ensureReviewCardsFromUnits units state
  /\ (forall c, c ∈ cards -> card_id c ∉ map card_id (reviewCards state) ->
        c ∈ reviewCards (addGeneratedReviewCards cards state)
        /\ reviewCardState (addGeneratedReviewCards cards state) !! card_id c
           = Some initialReviewState).
Proof.
  intros Hold. split; [| split; [| split; [| split; [| split]]]].
  - by apply addGeneratedReviewCards_old.
  - rewrite ensureReviewCardsFromUnits_as_add. by apply addGeneratedReviewCards_old.
  - apply addGeneratedReviewCards_all_known.
  - apply addGeneratedReviewCards_all_known. intros c Hc.
    by apply addGeneratedReviewCards_ids.
  - rewrite !ensureReviewCardsFromUnits_as_add.
    apply addGeneratedReviewCards_all_known. intros c Hc.
    by apply addGeneratedReviewCards_ids.
  - intros c Hc Hnew. by apply addGeneratedReviewCards_new.
Qed.

Lemma upsert_is_idempotent_witness :
  (reviewCardState (addGeneratedReviewCards [rewordedCard1] gradedStore) !! "c1"
   = reviewCardState gradedStore !! "c1"
   /\ filter (fun c => card_id c = "c1")
              (reviewCards (addGeneratedReviewCards [rewordedCard1] gradedStore))
      = filter (fun c => card_id c = "c1") (reviewCards gradedStore))
  /\ (reviewCardState (ensureReviewCardsFromUnits [twoSumUnit] gradedStore) !! "c1"
      = reviewCardState gradedStore !! "c1"
      /\ filter (fun c => card_id c = "c1")
                (reviewCards (ensureReviewCardsFromUnits [twoSumUnit] gradedStore))
         = filter (fun c => card_id c = "c1") (reviewCards gradedStore))
  /\ addGeneratedReviewCards [rewordedCard1] gradedStore = gradedStore
  /\ addGeneratedReviewCards [rewordedCard1]
       (addGeneratedReviewCards [rewordedCard1] gradedStore)
     = addGeneratedReviewCards [rewordedCard1] gradedStore
  /\ ensureReviewCardsFromUnits [twoSumUnit]
       (ensureReviewCardsFromUnits [twoSumUnit] gradedStore)
     = ensureReviewCardsFromUnits [twoSumUnit] gradedStore.
Proof.
  destruct (upsert_is_idempotent [rewordedCard1] [twoSumUnit] gradedStore "c1")
    as (Hadd & Hensure & Hknown & Htwice & Htwice' & _).
  - in_literal.
  - split; [exact Hadd | split; [exact Hensure | split; [| split]]].
    + apply Hknown. intros c Hc.
      apply elem_of_cons in Hc as [->|Hc]; [in_literal |].
      by apply elem_of_nil in Hc.
    + exact Htwice.
    + exact Htwice'.
Defined.

(** ** The review update *)

Lemma quality_passes_iff (grade : ReviewGrade) :
  3 <= qualityFromGrade grade <-> grade = good \/ grade = easy.
Proof.
  destruct grade; simpl; split; intros H; try lia; try tauto;
    destruct H as [H|H]; discriminate H.
Qed.

Lemma Math_round_ge_one (x : Q) : (1 # 2 <= x)%Q -> 1 <= Math_round x.
Proof.
  intros Hx. unfold Math_round.
  apply (Z.le_trans _ (Qfloor 1)); [reflexivity |].
  apply Qfloor_resp_le. lra.
Qed.

(** With an interval of at least one day and an ease at or above the floor,
    the rounded product is at least one and the lower bound is inert. *)
Lemma scaled_interval_ge (i : Z) (e bonus : Q) :
  0 <= i -> (13 # 10 <= e)%Q -> (1 <= bonus)%Q ->
  (inject_Z i * (129 # 100) <= double_mul (double_mul (inject_Z i) e) bonus)%Q.
Proof.
  intros Hi He Hb. unfold double_mul.
  assert (Hi' : (0 <= inject_Z i)%Q) by (rewrite Zle_Qle in Hi; exact Hi).
  assert (H1 : (inject_Z i * (13 # 10) <= inject_Z i * e)%Q)
    by (apply Qmult_le_compat_nonneg; split; lra).
  assert (H2 : (inject_Z i * (13 # 10) * (1 - ulpError) <= double (inject_Z i * e))%Q)
    by (apply double_lower; [lra | done]).
  assert (Hd : (0 <= double (inject_Z i * e))%Q) by (unfold ulpError in H2; lra).
  assert (H3 : (double (inject_Z i * e) * 1 <= double (inject_Z i * e) * bonus)%Q)
    by (apply Qmult_le_compat_nonneg; split; lra).
  assert (H4 : (inject_Z i * (13 # 10) * (1 - ulpError) * (1 - ulpError)
                <= double (double (inject_Z i * e) * bonus))%Q)
    by (apply double_lower; unfold ulpError in *; lra).
  unfold ulpError in *. lra.
Qed.

Lemma max_one_inert (i : Z) (e bonus : Q) :
  1 <= i -> (13 # 10 <= e)%Q -> (1 <= bonus)%Q ->
  Z.max 1 (Math_round (double_mul (double_mul (inject_Z i) e) bonus))
  = Math_round (double_mul (double_mul (inject_Z i) e) bonus).
Proof.
  intros Hi He Hb. apply Z.max_r, Math_round_ge_one.
  assert (Hi' : (1 <= inject_Z i)%Q) by (rewrite Zle_Qle in Hi; exact Hi).
  pose proof (scaled_interval_ge i e bonus) as Hs.
  assert (Hs' : (inject_Z i * (129 # 100)
                 <= double_mul (double_mul (inject_Z i) e) bonus)%Q)
    by (apply Hs; [lia | done | done]).
  lra.
Qed.

(** A failing grade (Again or Hard) on a review card is a lapse. *)
Lemma failing_grade_is_a_lapse st grade now :
  phase st = review -> qualityFromGrade grade < 3 ->
  repetition (gradedState st grade now) = 0
  /\ interval (gradedState st grade now) = 1
  /\ lapses (gradedState st grade now) = lapses st + 1
  /\ dueAt (gradedState st grade now) = now + 86400000.
Proof.
  intros Hph Hq. unfold gradedState. rewrite Hph. unfold reviewStep.
  assert (Hfail : (qualityFromGrade grade <? 3) = true) by (by apply Z.ltb_lt).
  rewrite Hfail. repeat split; reflexivity.
Qed.

(** After a review grade the interval is at least one day. *)
Lemma reviewStep_interval_pos prev grade now :
  1 <= interval (reviewStep prev grade now).
Proof.
  unfold reviewStep.
  destruct (qualityFromGrade grade <? 3); simpl; [lia |].
  destruct (repetition prev =? 0); [lia |].
  destruct (repetition prev =? 1); lia.
Qed.

Lemma reviewStep_dueAt prev grade now :
  dueAt (reviewStep prev grade now)
  = now + interval (reviewStep prev grade now) * MS_PER_DAY.
Proof. unfold reviewStep. destruct (qualityFromGrade grade <? 3); reflexivity. Qed.

(** A graded card is never due before the moment of its grade. *)
Lemma gradedState_due_not_before_now st grade now :
  now <= dueAt (gradedState st grade now).
Proof.
  unfold gradedState. destruct (phase st).
  - unfold learnStep; simpl. destruct (10 <=? seenCount st + 1); unfold MS_PER_DAY; lia.
  - rewrite reviewStep_dueAt.
    pose proof (reviewStep_interval_pos st grade now). unfold MS_PER_DAY. lia.
Qed.

(** A card that a grade at a non-negative clock leaves in review has a
    positive due time and an interval of at least one day: the states for
    which the zero-[dueAt] fallback of the weighted draw and the lower bound
    of the interval are inert. *)
Lemma gradedState_review_due_pos st grade now :
  0 <= now ->
  phase (gradedState st grade now) = review ->
  0 < dueAt (gradedState st grade now) /\ 1 <= interval (gradedState st grade now).
Proof.
  intros Hnow. unfold gradedState. destruct (phase st).
  - unfold learnStep; simpl.
    destruct (10 <=? seenCount st + 1); [| discriminate].
    intros _. unfold MS_PER_DAY. lia.
  - intros _. rewrite reviewStep_dueAt.
    pose proof (reviewStep_interval_pos st grade now). unfold MS_PER_DAY. lia.
Qed.

(** C4, as the code has it.  For a Review-phase card graded with quality at
    least 3, which means Good or Easy (Hard has quality 2): the new interval
    is 1 when [repetition = 0], 6 when [repetition = 1], and otherwise
    [max(1, round(interval * ease * bonus))] with [bonus = 1.15] exactly for
    Easy and 1 otherwise, the two products being products of doubles, each
    rounded to the nearest double before [Math.round]; [repetition] grows by
    one.  The lower bound 1 is inert when the old interval is at least 1 and
    the ease at least 1.3.  A card with [interval = 6], [repetition = 2],
    [ease = 2.5] graded Good gets [interval = 15], [repetition = 3]; one
    with [interval = 20], [repetition = 2], [ease = 2.5] graded Easy gets
    [interval = 57], the product [20 * 2.5 * 1.15] being
    57.49999999999999 in doubles. *)
Theorem passing_review_grade_interval
    (cardId : string) (state : AppState) (st : ReviewCardState)
    (grade : ReviewGrade) (now : Z) :
  reviewCardState state !! cardId = Some st ->
  phase st = review ->
  3 <= qualityFromGrade grade ->
  (grade = good \/ grade = easy)
  /\ exists st',
      reviewCardState (recordReviewResult cardId grade now state) !! cardId = Some st'
      /\ interval st'
         = (if repetition st =? 0 then 1
            else if repetition st =? 1 then 6
            else Z.max 1 (Math_round
                            (double_mul
                               (double_mul (inject_Z (interval st)) (efactor st))
                               (match grade with
                                | easy => double (23 # 20)
                                | _ => 1%Q
                                end))))
      /\ repetition st' = repetition st + 1
      /\ (1 <= interval st -> (13 # 10 <= efactor st)%Q ->
          interval st'
          = (if repetition st =? 0 then 1
             else if repetition st =? 1 then 6
             else Math_round
                    (double_mul
                       (double_mul (inject_Z (interval st)) (efactor st))
                       (match grade with
                        | easy => double (23 # 20)
                        | _ => 1%Q
                        end))))
      /\ (interval st = 6 -> repetition st = 2 -> (efactor st == 5 # 2)%Q ->
          grade = good -> interval st' = 15 /\ repetition st' = 3)
      /\ (interval st = 20 -> repetition st = 2 -> (efactor st == 5 # 2)%Q ->
          grade = easy -> interval st' = 57 /\ repetition st' = 3).
Proof.
  intros Hst Hph Hq.
  split; [by apply quality_passes_iff |].
  rewrite recordReviewResult_lookup, Hst; simpl.
  eexists; split; [reflexivity |].
  unfold gradedState. rewrite Hph. unfold reviewStep.
  assert (Hpass : (qualityFromGrade grade <? 3) = false) by (apply Z.ltb_ge; lia).
  rewrite Hpass.
  assert (Hbonus : (if qualityFromGrade grade =? 5 then double (23 # 20) else 1%Q)
                   = match grade with easy => double (23 # 20) | _ => 1%Q end)
    by (destruct grade; reflexivity).
  rewrite Hbonus. simpl.
  assert (Hscenario : forall i bonus, (efactor st == 5 # 2)%Q ->
            double_mul (double_mul (inject_Z i) (efactor st)) bonus
            = double_mul (double_mul (inject_Z i) (5 # 2)) bonus).
  { intros i bonus He. unfold double_mul.
    rewrite (double_proper (inject_Z i * efactor st) (inject_Z i * (5 # 2)))
      by (by rewrite He).
    reflexivity. }
  split; [reflexivity |]. split; [reflexivity |]. split; [| split].
  - intros Hi He.
    destruct (repetition st =? 0); [reflexivity |].
    destruct (repetition st =? 1); [reflexivity |].
    apply max_one_inert; [done | done |].
    destruct grade; try apply Qle_refl. rewrite double_1_15. q_literal.
  - intros Hi Hr He ->. rewrite Hi, Hr. simpl.
    rewrite (Hscenario 6 1%Q He). split; [vm_compute |]; reflexivity.
  - intros Hi Hr He ->. rewrite Hi, Hr. simpl.
    rewrite (Hscenario 20 (double (23 # 20)) He). split; [vm_compute |]; reflexivity.
Qed.

Lemma passing_review_grade_interval_witness :
  (good = good \/ good = easy)
  /\ exists st',
      reviewCardState (recordReviewResult "c1" good 20000 scenarioStore) !! "c1"
      = Some st'
      /\ interval st'
         = (if repetition scenarioState =? 0 then 1
            else if repetition scenarioState =? 1 then 6
            else Z.max 1 (Math_round
                            (double_mul
                               (double_mul (inject_Z (interval scenarioState))
                                           (efactor scenarioState))
                               1%Q)))
      /\ repetition st' = repetition scenarioState + 1
      /\ (1 <= interval scenarioState -> (13 # 10 <= efactor scenarioState)%Q ->
          interval st'
          = (if repetition scenarioState =? 0 then 1
             else if repetition scenarioState =? 1 then 6
             else Math_round
                    (double_mul
                       (double_mul (inject_Z (interval scenarioState))
                                   (efactor scenarioState))
                       1%Q)))
      /\ (interval scenarioState = 6 -> repetition scenarioState = 2 ->
          (efactor scenarioState == 5 # 2)%Q ->
          good = good -> interval st' = 15 /\ repetition st' = 3)
      /\ (interval scenarioState = 20 -> repetition scenarioState = 2 ->
          (efactor scenarioState == 5 # 2)%Q ->
          good = easy -> interval st' = 57 /\ repetition st' = 3).
Proof.
  apply (passing_review_grade_interval "c1" scenarioStore scenarioState good 20000).
  - reflexivity.
  - reflexivity.
  - simpl. lia.
Defined.

(** The specification counts Hard among the passing grades and gives the
    later intervals without a lower bound.  Hard on a graduated card
    ([repetition = 1]) resets it ([interval = 1], [repetition = 0], one more
    lapse) instead of giving [interval = 6], [repetition = 2]; and Good on a
    review state with [interval = 0], [repetition = 2] gives [interval = 1],
    not [round(0 * 2.5 * 1) = 0]. *)
Lemma hard_is_not_a_passing_grade :
  (specPassingGrade hard = true
   /\ specPassInterval graduatedState hard = 6
   /\ interval (gradedState graduatedState hard 20000) = 1
   /\ repetition (gradedState graduatedState hard 20000) = 0
   /\ lapses (gradedState graduatedState hard 20000) = 1
   /\ (interval (gradedState graduatedState hard 20000)
       = specPassInterval graduatedState hard
       /\ repetition (gradedState graduatedState hard 20000)
          = repetition graduatedState + 1 -> False))
  /\ (specPassInterval zeroIntervalState good = 0
      /\ interval (gradedState zeroIntervalState good 20000) = 1
      /\ interval (gradedState zeroIntervalState good 20000)
         <> specPassInterval zeroIntervalState good).
Proof.
  repeat split; try reflexivity.
  - intros [H _]. vm_compute in H. discriminate H.
  - intros H. vm_compute in H. discriminate H.
Qed.

(** ** The ease floor *)

Lemma nextEfactor_double_floor (e : Q) (quality : Z) :
  (double (13 # 10) <= nextEfactor e quality)%Q.
Proof.
  unfold nextEfactor.
  destruct (Qlt_le_dec _ (double (13 # 10))) as [Hlt|Hge]; [apply Qle_refl | exact Hge].
Qed.

(** The floor of the code is the double [1.3], which is not below 13/10. *)
Lemma nextEfactor_floor (e : Q) (quality : Z) : (13 # 10 <= nextEfactor e quality)%Q.
Proof.
  apply (Qle_trans _ (double (13 # 10))); [| apply nextEfactor_double_floor].
  rewrite double_1_3. q_literal.
Qed.

Lemma initialReviewState_floor : (13 # 10 <= efactor initialReviewState)%Q.
Proof. q_literal. Qed.

Lemma reviewStep_efactor prev grade now :
  efactor (reviewStep prev grade now) = nextEfactor (efactor prev) (qualityFromGrade grade).
Proof.
  unfold reviewStep.
  destruct (qualityFromGrade grade <? 3); reflexivity.
Qed.

Lemma gradedState_ease_floor st grade now :
  (13 # 10 <= efactor st)%Q -> (13 # 10 <= efactor (gradedState st grade now))%Q.
Proof.
  intros Hst. unfold gradedState. destruct (phase st).
  - exact Hst.
  - rewrite reviewStep_efactor. apply nextEfactor_floor.
Qed.

Create HintDb ease_floor.
#[local] Hint Resolve nextEfactor_floor initialReviewState_floor
  gradedState_ease_floor : ease_floor.

Lemma gradeSeq_ease_floor events : forall st,
  (13 # 10 <= efactor st)%Q -> (13 # 10 <= efactor (gradeSeq st events))%Q.
Proof.
  induction events as [|ev events IH]; intros st Hst; simpl; auto with ease_floor.
Qed.

Lemma recordReviewResult_ease_floor cardId grade now state :
  easeFloorHolds state -> easeFloorHolds (recordReviewResult cardId grade now state).
Proof.
  intros Hinv id st Hlook.
  destruct (decide (cardId = id)) as [<-|Hne].
  - rewrite recordReviewResult_lookup in Hlook. injection Hlook as <-.
    apply gradedState_ease_floor.
    destruct (reviewCardState state !! cardId) as [prev|] eqn:Hprev; simpl.
    + by apply (Hinv cardId).
    + auto with ease_floor.
  - rewrite recordReviewResult_lookup_ne in Hlook by done. by apply (Hinv id).
Qed.

Lemma addGeneratedReviewCards_ease_floor cards state :
  easeFloorHolds state -> easeFloorHolds (addGeneratedReviewCards cards state).
Proof.
  intros Hinv id st.
  destruct (addGeneratedReviewCards_unfold cards state) as [_ ->].
  rewrite withInitialStates_lookup.
  destruct (decide _) as [Hin|Hin]; intros Hlook.
  - injection Hlook as <-. auto with ease_floor.
  - by apply (Hinv id).
Qed.

Lemma emptyStore_ease_floor : easeFloorHolds emptyStore.
Proof.
  intros id st Hlook. unfold emptyStore in Hlook; simpl in Hlook.
  by rewrite lookup_empty in Hlook.
Qed.

(** C8. The ease factor never drops below 1.3: if every stored ease is at
    least 1.3 (as for every created card, whose ease is 2.5), then after any
    sequence of gradings of any cards with any grades every stored ease is
    still at least 1.3; and the state reached from the initial one by any
    sequence of grades has ease at least 1.3. *)
Theorem ease_never_below_floor
    (events : list (string * ReviewGrade * Z)) (cardEvents : list (ReviewGrade * Z))
    (state : AppState) :
  easeFloorHolds state ->
  easeFloorHolds (recordEvents events state)
  /\ (13 # 10 <= efactor (gradeSeq initialReviewState cardEvents))%Q.
Proof.
  intros Hinv. split.
  - revert state Hinv. induction events as [|ev events IH]; intros state Hinv; simpl.
    + exact Hinv.
    + apply IH. by apply recordReviewResult_ease_floor.
  - apply gradeSeq_ease_floor. auto with ease_floor.
Qed.

Lemma ease_never_below_floor_witness :
  easeFloorHolds (recordEvents manyAgains sampleStore)
  /\ (13 # 10 <= efactor (gradeSeq initialReviewState twelveGrades))%Q.
Proof.
  apply (ease_never_below_floor manyAgains twelveGrades sampleStore).
  apply addGeneratedReviewCards_ease_floor, emptyStore_ease_floor.
Defined.

(** ** Card selection *)

(** [Math.floor(Math.random() * arr.length)] is a valid index of a
    non-empty array. *)
Lemma at_index_random {A} (arr : list A) (u : Q) :
  (0 <= u)%Q -> (u < 1)%Q -> arr <> [] ->
  exists x, at_index arr (Qfloor (u * inject_Z (Z.of_nat (length arr)))) = Some x
            /\ x ∈ arr.
Proof.
  intros Hu0 Hu1 Hne.
  set (n := Z.of_nat (length arr)).
  assert (Hlen : n = Z.of_nat (length arr)) by reflexivity.
  assert (Hn : 0 < n) by (destruct arr; [done | simpl in Hlen; lia]).
  assert (Hn' : (0 < inject_Z n)%Q) by (rewrite Zlt_Qlt in Hn; exact Hn).
  assert (Hlo : 0 <= Qfloor (u * inject_Z n)).
  { apply (Z.le_trans _ (Qfloor 0)); [reflexivity |].
    apply Qfloor_resp_le. apply Qmult_le_0_compat; [done | by apply Qlt_le_weak]. }
  assert (Hhi : Qfloor (u * inject_Z n) < n).
  { rewrite Zlt_Qlt.
    apply (Qle_lt_trans _ (u * inject_Z n)); [apply Qfloor_le |].
    apply (Qlt_le_trans _ (1 * inject_Z n)); [| rewrite Qmult_1_l; apply Qle_refl].
    by apply Qmult_lt_compat_r. }
  unfold at_index.
  assert (Hnonneg : (Qfloor (u * inject_Z n) <? 0) = false) by (apply Z.ltb_ge; lia).
  rewrite Hnonneg.
  destruct (lookup_lt_is_Some_2 arr (Z.to_nat (Qfloor (u * inject_Z n)))) as [x Hx];
    [lia |].
  exists x. split; [exact Hx |]. apply list_elem_of_lookup. by eexists.
Qed.

Lemma foldl_min_le (l : list Z) : forall a,
  foldl Z.min a l <= a /\ forall x, x ∈ l -> foldl Z.min a l <= x.
Proof.
  induction l as [|y l IH]; intros a; simpl.
  - split; [lia | intros x Hx; by apply elem_of_nil in Hx].
  - destruct (IH (Z.min a y)) as [H1 H2]. split; [lia |].
    intros x Hx. apply elem_of_cons in Hx as [->|Hx]; [lia | by apply H2].
Qed.

Lemma foldl_min_attained (l : list Z) : forall a,
  foldl Z.min a l = a \/ foldl Z.min a l ∈ l.
Proof.
  induction l as [|y l IH]; intros a; simpl.
  - by left.
  - destruct (IH (Z.min a y)) as [H|H].
    + rewrite H. destruct (Z.min_spec a y) as [[_ ->]|[_ ->]];
        [by left | right; apply list_elem_of_here].
    + right. by apply list_elem_of_further.
Qed.

Lemma drawLoop_elem weighted : forall rand c,
  drawLoop rand weighted = Some c -> c ∈ map fst weighted.
Proof.
  induction weighted as [|[card w] rest IH]; intros rand c; simpl.
  - discriminate.
  - destruct (Qle_bool (rand - w) 0).
    + intros H. injection H as <-. apply list_elem_of_here.
    + intros H. apply list_elem_of_further. by apply (IH _ _ H).
Qed.

Section Selection.

Context (stateById : gmap string ReviewCardState).

Lemma isLearning_spec c :
  isLearning stateById c = true
  <-> exists st, stateById !! card_id c = Some st /\ phase st = learn
                 /\ seenCount st < 10.
Proof.
  unfold isLearning. destruct (stateById !! card_id c) as [st|].
  - rewrite andb_true_iff, bool_decide_eq_true, Z.ltb_lt. split.
    + intros [Hp Hs]. by exists st.
    + intros (st' & Heq & Hp & Hs). by injection Heq as <-.
  - split; [discriminate | intros (st & Heq & _); discriminate].
Qed.

Lemma isDue_spec now c :
  isDue now stateById c = true
  <-> exists st, stateById !! card_id c = Some st /\ phase st = review
                 /\ dueAt st <= now.
Proof.
  unfold isDue. destruct (stateById !! card_id c) as [st|].
  - rewrite andb_true_iff, bool_decide_eq_true, Z.leb_le. split.
    + intros [Hp Hs]. by exists st.
    + intros (st' & Heq & Hp & Hs). by injection Heq as <-.
  - split; [discriminate | intros (st & Heq & _); discriminate].
Qed.

Lemma seenOf_lookup c st :
  stateById !! card_id c = Some st -> seenOf stateById c = seenCount st.
Proof. intros H. unfold seenOf. by rewrite H. Qed.

Lemma learning_pool_elem (cards : list ReviewCard) c :
  c ∈ filter (fun c => isLearning stateById c) cards
  <-> c ∈ cards
      /\ exists st, stateById !! card_id c = Some st /\ phase st = learn
                    /\ seenCount st < 10.
Proof. rewrite list_elem_of_filter, Is_true_true, isLearning_spec. tauto. Qed.

Lemma due_pool_elem now (cards : list ReviewCard) c :
  c ∈ filter (fun c => isDue now stateById c) cards
  <-> c ∈ cards
      /\ exists st, stateById !! card_id c = Some st /\ phase st = review
                    /\ dueAt st <= now.
Proof. rewrite list_elem_of_filter, Is_true_true, isDue_spec. tauto. Qed.

(** The minimum computed over a non-empty pool is the [seenCount] of one
    of its cards and a lower bound of all of them. *)
Lemma minSeen_spec (c0 : ReviewCard) (rest : list ReviewCard) :
  let minSeen := foldl Z.min (seenOf stateById c0) (map (seenOf stateById) rest) in
  (exists c, c ∈ c0 :: rest /\ seenOf stateById c = minSeen)
  /\ (forall c, c ∈ c0 :: rest -> minSeen <= seenOf stateById c).
Proof.
  intros minSeen. split.
  - destruct (foldl_min_attained (map (seenOf stateById) rest) (seenOf stateById c0))
      as [H|H].
    + exists c0. split; [apply list_elem_of_here | by symmetry].
    + apply list_elem_of_fmap in H as (c & Hc & Hin).
      exists c. split; [by apply list_elem_of_further | by symmetry].
  - intros c Hc.
    destruct (foldl_min_le (map (seenOf stateById) rest) (seenOf stateById c0))
      as [H1 H2].
    apply elem_of_cons in Hc as [->|Hc]; [exact H1 |].
    apply H2. apply list_elem_of_fmap. by exists c.
Qed.

Lemma weighted_cards now (cards : list ReviewCard) :
  map fst (map (fun card => (card, overdueWeight now stateById card)) cards) = cards.
Proof. induction cards as [|c cards IH]; simpl; [done | by rewrite IH]. Qed.

(** The weighted draw always returns one of the cards it is given. *)
Lemma weightedRandomByOverdue_elem now u cards c :
  weightedRandomByOverdue now u cards stateById = Some c -> c ∈ cards.
Proof.
  unfold weightedRandomByOverdue.
  destruct (drawLoop _ _) as [card|] eqn:Hdraw.
  - intros H. injection H as <-. apply drawLoop_elem in Hdraw.
    by rewrite weighted_cards in Hdraw.
  - destruct cards as [|c0 cards]; simpl; [discriminate |].
    intros H. injection H as <-. apply list_elem_of_here.
Qed.

Lemma weightedRandomByOverdue_some now u cards :
  cards <> [] -> is_Some (weightedRandomByOverdue now u cards stateById).
Proof.
  intros Hne. unfold weightedRandomByOverdue.
  destruct (drawLoop _ _) as [card|]; [by eexists |].
  destruct cards as [|c0 cards]; [done | by eexists].
Qed.

(** With a non-empty learning pool the selection returns one of its cards
    with the least [seenCount], whatever the draw. *)
Lemma getNextCard_learning now now' u cards c0 rest :
  filter (fun c => isLearning stateById c) cards = c0 :: rest ->
  (0 <= u)%Q -> (u < 1)%Q ->
  exists c, getNextCard now now' u cards stateById = Some c
            /\ c ∈ c0 :: rest
            /\ forall c', c' ∈ c0 :: rest -> seenOf stateById c <= seenOf stateById c'.
Proof.
  intros Hpool Hu0 Hu1. unfold getNextCard. rewrite Hpool.
  destruct (minSeen_spec c0 rest) as [(cmin & Hcmin & Hseen) Hle].
  set (minSeen := foldl Z.min (seenOf stateById c0) (map (seenOf stateById) rest)) in *.
  set (bucket := filter (fun c => seenOf stateById c = minSeen) (c0 :: rest)).
  assert (Hne : bucket <> []).
  { intros Hnil.
    assert (Hin : cmin ∈ bucket) by (apply list_elem_of_filter; by split).
    rewrite Hnil in Hin. by apply elem_of_nil in Hin. }
  destruct (at_index_random bucket u Hu0 Hu1 Hne) as (c & Hc & Hin).
  exists c. split; [exact Hc |].
  apply list_elem_of_filter in Hin as [Hmin Hin]. split; [exact Hin |].
  intros c' Hc'. rewrite Hmin. by apply Hle.
Qed.

(** With an empty learning pool the selection is the weighted draw over
    the due pool, or [null] when that is empty too. *)
Lemma getNextCard_no_learning now now' u cards :
  filter (fun c => isLearning stateById c) cards = [] ->
  getNextCard now now' u cards stateById
  = if (length (filter (fun c => isDue now stateById c) cards) =? 0)%nat then None
    else weightedRandomByOverdue now' u (filter (fun c => isDue now stateById c) cards)
           stateById.
Proof. intros Hpool. unfold getNextCard. by rewrite Hpool. Qed.

(** A returned card comes from one of the two pools. *)
Lemma getNextCard_some now now' u cards c :
  (0 <= u)%Q -> (u < 1)%Q ->
  getNextCard now now' u cards stateById = Some c ->
  c ∈ cards
  /\ exists st, stateById !! card_id c = Some st
                /\ ((phase st = learn /\ seenCount st < 10)
                    \/ (phase st = review /\ dueAt st <= now)).
Proof.
  intros Hu0 Hu1 Hget.
  destruct (filter (fun c => isLearning stateById c) cards) as [|c1 rest] eqn:Hpool.
  - rewrite (getNextCard_no_learning _ _ _ _ Hpool) in Hget.
    destruct (length _ =? 0)%nat; [discriminate |].
    apply weightedRandomByOverdue_elem, due_pool_elem in Hget
      as (Hc & st & Hst & Hdue).
    split; [done |]. exists st. split; [done | by right].
  - destruct (getNextCard_learning now now' u cards c1 rest Hpool Hu0 Hu1)
      as (c' & Hget' & Hin & _).
    rewrite Hget' in Hget. injection Hget as ->.
    rewrite <- Hpool in Hin.
    apply learning_pool_elem in Hin as (Hc & st & Hst & Hlearn).
    split; [done |]. exists st. split; [done | by left].
Qed.

End Selection.

(** C6. Whenever some card is in the learning pool ([phase = learn],
    [seenCount < 10]), [getNextCard] returns, for every draw [u] in [0, 1), a
    card of that pool whose [seenCount] is the least of the pool: no learning
    card with a larger count is returned while one with a smaller count
    exists. *)
Theorem least_seen_learning_card_first
    (now now' : Z) (u : Q) (cards : list ReviewCard)
    (stateById : gmap string ReviewCardState) :
  (0 <= u)%Q -> (u < 1)%Q ->
  (exists c0 st0, c0 ∈ cards /\ stateById !! card_id c0 = Some st0
                  /\ phase st0 = learn /\ seenCount st0 < 10) ->
  exists c st,
    getNextCard now now' u cards stateById = Some c
    /\ c ∈ cards
    /\ stateById !! card_id c = Some st
    /\ phase st = learn
    /\ seenCount st < 10
    /\ forall c' st', c' ∈ cards -> stateById !! card_id c' = Some st' ->
                      phase st' = learn -> seenCount st' < 10 ->
                      seenCount st <= seenCount st'.
Proof.
  intros Hu0 Hu1 (c0 & st0 & Hc0 & Hst0 & Hph0 & Hseen0).
  destruct (filter (fun c => isLearning stateById c) cards) as [|c1 rest] eqn:Hpool.
  - assert (Hin : c0 ∈ filter (fun c => isLearning stateById c) cards).
    { apply learning_pool_elem. split; [done |]. by exists st0. }
    rewrite Hpool in Hin. by apply elem_of_nil in Hin.
  - destruct (getNextCard_learning stateById now now' u cards c1 rest Hpool Hu0 Hu1)
      as (c & Hget & Hin & Hmin).
    rewrite <- Hpool in Hin, Hmin.
    apply learning_pool_elem in Hin as (Hc & st & Hst & Hph & Hseen).
    exists c, st. repeat split; try done.
    intros c' st' Hc' Hst' Hph' Hseen'.
    rewrite <- (seenOf_lookup stateById c st Hst), <- (seenOf_lookup stateById c' st' Hst').
    apply Hmin. apply learning_pool_elem. split; [done |]. by exists st'.
Qed.

Lemma least_seen_learning_card_first_witness :
  exists c st,
    getNextCard 1000 1000 (99 # 100) threeCards learningStates = Some c
    /\ c ∈ threeCards
    /\ learningStates !! card_id c = Some st
    /\ phase st = learn
    /\ seenCount st < 10
    /\ forall c' st', c' ∈ threeCards -> learningStates !! card_id c' = Some st' ->
                      phase st' = learn -> seenCount st' < 10 ->
                      seenCount st <= seenCount st'.
Proof.
  apply (least_seen_learning_card_first 1000 1000 (99 # 100) threeCards learningStates).
  - q_literal.
  - q_literal.
  - exists (sampleCard "c"), (learningState 3).
    split; [in_literal |]. split; [reflexivity |]. split; [reflexivity | simpl; lia].
Defined.

(** C5. For a draw [u] in [0, 1), [getNextCard] returns [null] exactly when
    both pools are empty: no card is in Learning with [seenCount < 10] and no
    card is in Review with [dueAt <= now].  A returned card belongs to one of
    the two pools, so a Review card with [dueAt > now] is never returned and
    does not keep the result from being [null]. *)
Theorem getNextCard_null_iff_pools_empty
    (now now' : Z) (u : Q) (cards : list ReviewCard)
    (stateById : gmap string ReviewCardState) :
  (0 <= u)%Q -> (u < 1)%Q ->
  (getNextCard now now' u cards stateById = None
   <-> forall c st, c ∈ cards -> stateById !! card_id c = Some st ->
                    ~ (phase st = learn /\ seenCount st < 10)
                    /\ ~ (phase st = review /\ dueAt st <= now))
  /\ (forall c, getNextCard now now' u cards stateById = Some c ->
        c ∈ cards
        /\ exists st, stateById !! card_id c = Some st
                      /\ ((phase st = learn /\ seenCount st < 10)
                          \/ (phase st = review /\ dueAt st <= now)))
  /\ (forall c st, c ∈ cards -> stateById !! card_id c = Some st ->
        phase st = review -> now < dueAt st ->
        getNextCard now now' u cards stateById <> Some c).
Proof.
  intros Hu0 Hu1.
  pose proof (getNextCard_some stateById now now' u cards) as Hsome.
  split; [| split; [intros c; by apply Hsome |]].
  - split.
    + intros Hnone c st Hc Hst.
      destruct (filter (fun c => isLearning stateById c) cards) as [|c1 rest] eqn:Hpool.
      * rewrite (getNextCard_no_learning _ _ _ _ _ Hpool) in Hnone.
        destruct (filter (fun c => isDue now stateById c) cards) as [|d1 drest] eqn:Hdue.
        -- split; intros [Hph Hcond].
           ++ assert (Hin : c ∈ filter (fun c => isLearning stateById c) cards).
              { apply learning_pool_elem. split; [done |]. by exists st. }
              rewrite Hpool in Hin. by apply elem_of_nil in Hin.
           ++ assert (Hin : c ∈ filter (fun c => isDue now stateById c) cards).
              { apply due_pool_elem. split; [done |]. by exists st. }
              rewrite Hdue in Hin. by apply elem_of_nil in Hin.
        -- simpl in Hnone.
           destruct (weightedRandomByOverdue_some stateById now' u (d1 :: drest))
             as [x Hx]; [done |].
           rewrite Hx in Hnone. discriminate Hnone.
      * destruct (getNextCard_learning stateById now now' u cards c1 rest Hpool Hu0 Hu1)
          as (c' & Hget' & _).
        rewrite Hget' in Hnone. discriminate Hnone.
    + intros Hempty.
      destruct (getNextCard now now' u cards stateById) as [c|] eqn:Hget; [| done].
      destruct (Hsome c Hu0 Hu1 eq_refl) as (Hc & st & Hst & Hpools).
      destruct (Hempty c st Hc Hst) as [Hl Hd]. tauto.
  - intros c st Hc Hst Hph Hlate Hget.
    destruct (Hsome c Hu0 Hu1 Hget) as (_ & st' & Hst' & Hpools).
    rewrite Hst in Hst'. injection Hst' as <-.
    destruct Hpools as [[Hl _]|[_ Hd]]; [congruence | lia].
Qed.

Lemma getNextCard_null_iff_pools_empty_witness :
  (getNextCard 1000 1000 (1 # 2) threeCards futureStates = None
   <-> forall c st, c ∈ threeCards -> futureStates !! card_id c = Some st ->
                    ~ (phase st = learn /\ seenCount st < 10)
                    /\ ~ (phase st = review /\ dueAt st <= 1000))
  /\ (forall c, getNextCard 1000 1000 (1 # 2) threeCards futureStates = Some c ->
        c ∈ threeCards
        /\ exists st, futureStates !! card_id c = Some st
                      /\ ((phase st = learn /\ seenCount st < 10)
                          \/ (phase st = review /\ dueAt st <= 1000)))
  /\ (forall c st, c ∈ threeCards -> futureStates !! card_id c = Some st ->
        phase st = review -> 1000 < dueAt st ->
        getNextCard 1000 1000 (1 # 2) threeCards futureStates <> Some c).
Proof.
  apply (getNextCard_null_iff_pools_empty 1000 1000 (1 # 2) threeCards futureStates);
    q_literal.
Defined.

(** ** The overdue-weighted draw *)









(** A card of the three-card sample deck is one of its three cards. *)
Lemma threeCards_cases (P : ReviewCard -> Prop) :
  P (sampleCard "a") -> P (sampleCard "b") -> P (sampleCard "c") ->
  forall c, c ∈ threeCards -> P c.
Proof.
  intros Ha Hb Hc c Hin. unfold threeCards in Hin.
  repeat (apply elem_of_cons in Hin as [->|Hin]; [assumption |]).
  by apply elem_of_nil in Hin.
Qed.



(** * Part IV: further properties *)

(** ** What the scheduler keeps true of every state *)

Lemma Math_round_ge (n : Z) (x : Q) : (inject_Z n <= x + (1 # 2))%Q -> n <= Math_round x.
Proof.
  intros Hx. unfold Math_round. rewrite <- (Qfloor_Z n). by apply Qfloor_resp_le.
Qed.

Lemma wellFormed_initial : wellFormed initialReviewState.
Proof. unfold wellFormed; simpl. repeat split; lia. Qed.

Lemma wellFormed_learnStep st now :
  phase st = learn -> wellFormed st -> 0 <= now -> wellFormed (learnStep st now).
Proof.
  unfold wellFormed. intros Hph. rewrite Hph.
  intros (Hseen & Hi & Hr & Hl & He) Hnow.
  unfold learnStep; simpl.
  destruct (10 <=? seenCount st + 1) eqn:Hgrad; simpl.
  - apply Z.leb_le in Hgrad. rewrite He, Hl. unfold MS_PER_DAY.
    repeat split; try lia. q_literal.
  - apply Z.leb_gt in Hgrad. repeat split; try lia; assumption.
Qed.

Lemma wellFormed_reviewStep st grade now :
  phase st = review -> wellFormed st -> 0 <= now -> wellFormed (reviewStep st grade now).
Proof.
  unfold wellFormed at 1. intros Hph. rewrite Hph.
  intros (Hseen & Hdue & Hl & Hr & Hr1 & Hr2 & He) Hnow.
  assert (Hfloor : (13 # 10 <= nextEfactor (efactor st) (qualityFromGrade grade))%Q)
    by apply nextEfactor_floor.
  unfold wellFormed, reviewStep.
  destruct (qualityFromGrade grade <? 3); simpl.
  - unfold MS_PER_DAY. repeat split; try lia. exact Hfloor.
  - destruct (repetition st =? 0) eqn:H0; [| destruct (repetition st =? 1) eqn:H1].
    + apply Z.eqb_eq in H0. unfold MS_PER_DAY. repeat split; try lia. exact Hfloor.
    + apply Z.eqb_eq in H1. unfold MS_PER_DAY. repeat split; try lia. exact Hfloor.
    + apply Z.eqb_neq in H0. apply Z.eqb_neq in H1.
      set (bonus := if qualityFromGrade grade =? 5 then double (23 # 20) else 1%Q).
      assert (Hb : (1 <= bonus)%Q) by apply bonus_ge_one.
      assert (Hi : 6 <= interval st) by (apply Hr2; lia).
      assert (Hx : 6 <= Math_round (double_mul
                                      (double_mul (inject_Z (interval st)) (efactor st))
                                      bonus)).
      { apply Math_round_ge.
        pose proof (scaled_interval_ge (interval st) (efactor st) bonus) as Hs.
        assert (Hi' : (inject_Z 6 <= inject_Z (interval st))%Q)
          by (rewrite Zle_Qle in Hi; exact Hi).
        assert (Hs' : (inject_Z (interval st) * (129 # 100)
                       <= double_mul (double_mul (inject_Z (interval st)) (efactor st))
                                     bonus)%Q)
          by (apply Hs; [lia | done | done]).
        assert (H6 : (inject_Z 6 == 6)%Q) by reflexivity.
        lra. }
      unfold MS_PER_DAY. repeat split; try lia. exact Hfloor.
Qed.

(** A well-formed state stays well formed under any grade. *)
Lemma wellFormed_gradedState st grade now :
  wellFormed st -> 0 <= now -> wellFormed (gradedState st grade now).
Proof.
  intros Hwf Hnow. unfold gradedState. destruct (phase st) eqn:Hph.
  - by apply wellFormed_learnStep.
  - by apply wellFormed_reviewStep.
Qed.

Lemma storeConsistent_add cards state :
  storeConsistent state -> storeConsistent (addGeneratedReviewCards cards state).
Proof.
  intros [Hcards Hstates].
  destruct (addGeneratedReviewCards_unfold cards state) as [Hc Hs].
  split.
  - intros c Hin. rewrite Hs, withInitialStates_lookup.
    destruct (decide _) as [Hnew|Hold]; [by eexists |].
    rewrite Hc in Hin. apply elem_of_app in Hin as [Hin|Hin]; [by apply Hcards |].
    exfalso. apply Hold. apply list_elem_of_fmap. by exists c.
  - intros id st. rewrite Hs, withInitialStates_lookup.
    destruct (decide _) as [Hnew|Hold]; intros Hst.
    + injection Hst as <-. apply wellFormed_initial.
    + by apply (Hstates id).
Qed.

Lemma storeConsistent_record cardId grade now state :
  storeConsistent state -> 0 <= now ->
  storeConsistent (recordReviewResult cardId grade now state).
Proof.
  intros [Hcards Hstates] Hnow. split.
  - intros c Hin.
    destruct (decide (cardId = card_id c)) as [<-|Hne].
    + rewrite recordReviewResult_lookup. by eexists.
    + rewrite recordReviewResult_lookup_ne by done. by apply Hcards.
  - intros id st Hst.
    destruct (decide (cardId = id)) as [<-|Hne].
    + rewrite recordReviewResult_lookup in Hst. injection Hst as <-.
      apply wellFormed_gradedState; [| done].
      destruct (reviewCardState state !! cardId) as [prev|] eqn:Hprev; simpl.
      * by apply (Hstates cardId).
      * apply wellFormed_initial.
    + rewrite recordReviewResult_lookup_ne in Hst by done. by apply (Hstates id).
Qed.

Lemma storeConsistent_initial units : storeConsistent (initialAppState units).
Proof.
  split.
  - intros c Hin. unfold initialAppState in *; simpl in *.
    rewrite withInitialStates_lookup.
    destruct (decide _) as [_|Hno]; [by eexists |].
    exfalso. apply Hno. apply list_elem_of_fmap. by exists c.
  - intros id st. unfold initialAppState; simpl.
    rewrite withInitialStates_lookup.
    destruct (decide _) as [_|Hno]; intros Hst.
    + injection Hst as <-. apply wellFormed_initial.
    + by rewrite lookup_empty in Hst.
Qed.

(** X1. Every store that the adding and grading actions produce from the
    initial one, with a non-negative clock, is consistent: every card of the
    deck has a state, a learning state has [0 <= seenCount < 10] and the
    initial interval, repetition, lapses and ease, and a review state has
    [seenCount = 10], a positive due time, an interval of one day up to its
    second success and of at least six days from then on, and an ease of at
    least 1.3. *)
Theorem reachable_store_consistent (DEFAULT_UNITS : list Unit) (state : AppState) :
  reachable DEFAULT_UNITS state ->
  (forall c, c ∈ reviewCards state -> is_Some (reviewCardState state !! card_id c))
  /\ (forall (id : string) st, reviewCardState state !! id = Some st ->
        match phase st with
        | learn =>
            0 <= seenCount st < 10 /\ interval st = 0 /\ repetition st = 0
            /\ lapses st = 0 /\ efactor st = (5 # 2)%Q
        | review =>
            seenCount st = 10 /\ 0 < dueAt st /\ 0 <= lapses st /\ 0 <= repetition st
            /\ (repetition st <= 1 -> interval st = 1)
            /\ (2 <= repetition st -> 6 <= interval st)
            /\ (13 # 10 <= efactor st)%Q
        end).
Proof.
  intros Hreach. change (storeConsistent state).
  induction Hreach as [|units state _ IH|cards state _ IH|cardId grade now state _ IH Hnow].
  - apply storeConsistent_initial.
  - rewrite ensureReviewCardsFromUnits_as_add. by apply storeConsistent_add.
  - by apply storeConsistent_add.
  - by apply storeConsistent_record.
Qed.

Lemma reachable_store_consistent_witness :
  (forall c, c ∈ reviewCards (recordReviewResult "fc-1" good 1000
                               (addGeneratedReviewCards [sampleCard "c1"]
                                  (initialAppState [twoSumUnit]))) ->
             is_Some (reviewCardState (recordReviewResult "fc-1" good 1000
                                         (addGeneratedReviewCards [sampleCard "c1"]
                                            (initialAppState [twoSumUnit])))
                        !! card_id c))
  /\ (forall (id : string) st,
        reviewCardState (recordReviewResult "fc-1" good 1000
                           (addGeneratedReviewCards [sampleCard "c1"]
                              (initialAppState [twoSumUnit]))) !! id = Some st ->
        match phase st with
        | learn =>
            0 <= seenCount st < 10 /\ interval st = 0 /\ repetition st = 0
            /\ lapses st = 0 /\ efactor st = (5 # 2)%Q
        | review =>
            seenCount st = 10 /\ 0 < dueAt st /\ 0 <= lapses st /\ 0 <= repetition st
            /\ (repetition st <= 1 -> interval st = 1)
            /\ (2 <= repetition st -> 6 <= interval st)
            /\ (13 # 10 <= efactor st)%Q
        end).
Proof.
  apply (reachable_store_consistent [twoSumUnit]).
  apply reach_record; [| lia]. apply reach_add. apply reach_init.
Defined.


(** ** Sequences of grades from scratch *)

Lemma gradeSeq_app st events1 events2 :
  gradeSeq st (events1 ++ events2) = gradeSeq (gradeSeq st events1) events2.
Proof. unfold gradeSeq. by rewrite foldl_app. Qed.

Lemma failingGrades_cons ev events :
  length (failingGrades (ev :: events))
  = if qualityFromGrade (fst ev) <? 3 then S (length (failingGrades events))
    else length (failingGrades events).
Proof.
  unfold failingGrades. rewrite filter_cons.
  destruct (decide (qualityFromGrade ev.1 < 3)) as [Hlt|Hge].
  - apply Z.ltb_lt in Hlt. by rewrite Hlt.
  - assert (Hge' : (qualityFromGrade ev.1 <? 3) = false) by (apply Z.ltb_ge; lia).
    by rewrite Hge'.
Qed.

Lemma gradeSeq_review (events : list (ReviewGrade * Z)) : forall st,
  phase st = review ->
  phase (gradeSeq st events) = review
  /\ seenCount (gradeSeq st events) = seenCount st
  /\ lapses (gradeSeq st events)
     = lapses st + Z.of_nat (length (failingGrades events)).
Proof.
  induction events as [|ev events IH]; intros st Hph.
  - simpl. repeat split; [done | lia].
  - change (gradeSeq st (ev :: events))
      with (gradeSeq (gradedState st ev.1 ev.2) events).
    assert (Hstep : gradedState st ev.1 ev.2 = reviewStep st ev.1 ev.2)
      by (unfold gradedState; by rewrite Hph).
    rewrite Hstep.
    destruct (IH (reviewStep st ev.1 ev.2)) as (IH1 & IH2 & IH3).
    + unfold reviewStep. by destruct (qualityFromGrade ev.1 <? 3).
    + rewrite IH1, IH2, IH3, failingGrades_cons.
      split; [done |]. unfold reviewStep.
      destruct (qualityFromGrade ev.1 <? 3); simpl; split; lia.
Qed.

(** A learning card that still needs [n] exposures graduates with the
    [n]-th grade; only the grades after it are judged. *)
Lemma gradeSeq_from_learning (events : list (ReviewGrade * Z)) : forall st,
  phase st = learn -> 0 <= seenCount st < 10 ->
  let n := Z.to_nat (10 - seenCount st) in
  phase (gradeSeq st events) = (if (n <=? length events)%nat then review else learn)
  /\ seenCount (gradeSeq st events)
     = Z.min (seenCount st + Z.of_nat (length events)) 10
  /\ lapses (gradeSeq st events)
     = lapses st + Z.of_nat (length (failingGrades (drop n events))).
Proof.
  induction events as [|ev events IH]; intros st Hph Hseen n.
  - assert (Hn : (n <=? 0)%nat = false) by (apply Nat.leb_gt; unfold n; lia).
    simpl length. rewrite Hn, drop_nil. simpl. repeat split; [done | lia | lia].
  - change (gradeSeq st (ev :: events))
      with (gradeSeq (gradedState st ev.1 ev.2) events).
    assert (Hstep : gradedState st ev.1 ev.2 = learnStep st ev.2)
      by (unfold gradedState; by rewrite Hph).
    rewrite Hstep.
    destruct (decide (seenCount st = 9)) as [H9|H9].
    + assert (Hn1 : n = 1%nat) by (unfold n; lia).
      assert (Hgrad : (10 <=? seenCount st + 1) = true) by (apply Z.leb_le; lia).
      destruct (gradeSeq_review events (learnStep st ev.2)) as (Hp & Hs & Hl).
      { unfold learnStep; simpl. by rewrite Hgrad. }
      rewrite Hp, Hs, Hl, Hn1. simpl.
      unfold learnStep; simpl. repeat split; lia.
    + assert (Hstay : (10 <=? seenCount st + 1) = false) by (apply Z.leb_gt; lia).
      destruct (IH (learnStep st ev.2)) as (Hp & Hs & Hl).
      { unfold learnStep; simpl. by rewrite Hstay. }
      { unfold learnStep; simpl. lia. }
      rewrite Hp, Hs, Hl.
      assert (Hn' : n = S (Z.to_nat (10 - seenCount (learnStep st ev.2))))
        by (unfold n, learnStep; simpl; lia).
      rewrite Hn'. simpl.
      unfold learnStep; simpl. repeat split; lia.
Qed.

(** X2. Review is absorbing: a card in the review phase stays there under
    any further grades, its [seenCount] no longer moves, and its lapse count
    grows by exactly the number of failing grades (Again or Hard). *)
Theorem review_is_absorbing (st : ReviewCardState) (events : list (ReviewGrade * Z)) :
  phase st = review ->
  phase (gradeSeq st events) = review
  /\ seenCount (gradeSeq st events) = seenCount st
  /\ lapses (gradeSeq st events)
     = lapses st + Z.of_nat (length (failingGrades events)).
Proof. intros Hph. by apply gradeSeq_review. Qed.

Lemma review_is_absorbing_witness :
  phase (gradeSeq graduatedState [(again, 100000000); (good, 200000000);
                                  (hard, 300000000)]) = review
  /\ seenCount (gradeSeq graduatedState [(again, 100000000); (good, 200000000);
                                         (hard, 300000000)])
     = seenCount graduatedState
  /\ lapses (gradeSeq graduatedState [(again, 100000000); (good, 200000000);
                                      (hard, 300000000)])
     = lapses graduatedState
       + Z.of_nat (length (failingGrades [(again, 100000000); (good, 200000000);
                                          (hard, 300000000)])).
Proof.
  apply (review_is_absorbing graduatedState
           [(again, 100000000); (good, 200000000); (hard, 300000000)]).
  reflexivity.
Defined.

(** X3. The state of a new card after any list of grades: it is in review
    exactly when at least ten grades were given, its [seenCount] is the
    number of grades capped at ten, and its lapses are the failing grades
    among those given after the tenth; the first ten grades count as
    exposures whatever they are. *)
Theorem state_after_grades_from_scratch (events : list (ReviewGrade * Z)) :
  phase (gradeSeq initialReviewState events)
  = (if (10 <=? length events)%nat then review else learn)
  /\ seenCount (gradeSeq initialReviewState events)
     = Z.min (Z.of_nat (length events)) 10
  /\ lapses (gradeSeq initialReviewState events)
     = Z.of_nat (length (failingGrades (drop 10 events))).
Proof.
  destruct (gradeSeq_from_learning events initialReviewState) as (Hp & Hs & Hl);
    [reflexivity | simpl; lia |].
  simpl in Hp, Hs, Hl. repeat split; [exact Hp | exact Hs | exact Hl].
Qed.

(** ** The session's counters against the selection *)

Lemma filter_ext_in {A} (P Q : A -> Prop) `{forall x, Decision (P x)}
    `{forall x, Decision (Q x)} (l : list A) :
  (forall x, x ∈ l -> P x <-> Q x) -> filter P l = filter Q l.
Proof.
  induction l as [|x l IH]; intros Hext; [done |].
  rewrite !filter_cons.
  assert (Hx : P x <-> Q x) by (apply Hext, list_elem_of_here).
  assert (Hl : filter P l = filter Q l)
    by (apply IH; intros y Hy; by apply Hext, list_elem_of_further).
  destruct (decide (P x)), (decide (Q x)); try tauto; by rewrite Hl.
Qed.

Lemma filter_all {A} (P : A -> Prop) `{forall x, Decision (P x)} (l : list A) :
  (forall x, x ∈ l -> P x) -> filter P l = l.
Proof.
  induction l as [|x l IH]; intros Hall; [done |].
  rewrite filter_cons_True by apply Hall, list_elem_of_here.
  f_equal. apply IH. intros y Hy. by apply Hall, list_elem_of_further.
Qed.

(** When every card has a state the two counters are the sizes of the two
    pools of [getNextCard]. *)
Lemma counters_are_pool_sizes now (cards : list ReviewCard)
    (stateById : gmap string ReviewCardState) :
  (forall c, c ∈ cards -> is_Some (stateById !! card_id c)) ->
  learnRemaining cards stateById
  = length (filter (fun c => isLearning stateById c) cards)
  /\ dueCount now cards stateById
     = length (filter (fun c => isDue now stateById c) cards).
Proof.
  intros Hall. unfold learnRemaining, dueCount. split; f_equal.
  - apply filter_ext_in. intros c Hc. destruct (Hall c Hc) as [st Hst].
    unfold isLearning, seenOf. rewrite Hst. reflexivity.
  - apply filter_ext_in. intros c Hc. destruct (Hall c Hc) as [st Hst].
    unfold isDue. rewrite Hst. reflexivity.
Qed.

Lemma getNextCard_none_iff_pools now now' u cards stateById :
  (0 <= u)%Q -> (u < 1)%Q ->
  getNextCard now now' u cards stateById = None
  <-> filter (fun c => isLearning stateById c) cards = []
      /\ filter (fun c => isDue now stateById c) cards = [].
Proof.
  intros Hu0 Hu1. split.
  - intros Hnone.
    destruct (filter (fun c => isLearning stateById c) cards) as [|c1 rest] eqn:Hpool.
    + split; [done |].
      rewrite (getNextCard_no_learning _ _ _ _ _ Hpool) in Hnone.
      destruct (filter (fun c => isDue now stateById c) cards) as [|d1 drest] eqn:Hdue;
        [done |].
      simpl in Hnone.
      destruct (weightedRandomByOverdue_some stateById now' u (d1 :: drest))
        as [x Hx]; [done |].
      rewrite Hx in Hnone. discriminate Hnone.
    + destruct (getNextCard_learning stateById now now' u cards c1 rest Hpool Hu0 Hu1)
        as (c' & Hget' & _).
      rewrite Hget' in Hnone. discriminate Hnone.
  - intros [Hpool Hdue].
    rewrite (getNextCard_no_learning _ _ _ _ _ Hpool), Hdue. reflexivity.
Qed.

(** X4. When every card of the deck has a state, the test that starts a
    generation, [learnRemaining === 0 && dueCount === 0], agrees with the
    selection: for a draw in [0, 1) and one reading of the clock, both
    counters are zero exactly when [getNextCard] returns [null]. *)
Theorem counters_zero_iff_nothing_to_show
    (now now' : Z) (u : Q) (cards : list ReviewCard)
    (stateById : gmap string ReviewCardState) :
  (forall c, c ∈ cards -> is_Some (stateById !! card_id c)) ->
  (0 <= u)%Q -> (u < 1)%Q ->
  (learnRemaining cards stateById = 0%nat /\ dueCount now cards stateById = 0%nat)
  <-> getNextCard now now' u cards stateById = None.
Proof.
  intros Hall Hu0 Hu1.
  destruct (counters_are_pool_sizes now cards stateById Hall) as [-> ->].
  rewrite (getNextCard_none_iff_pools now now' u cards stateById Hu0 Hu1).
  rewrite !length_zero_iff_nil. tauto.
Qed.

Lemma counters_zero_iff_nothing_to_show_witness :
  (learnRemaining threeCards futureStates = 0%nat
   /\ dueCount 1000 threeCards futureStates = 0%nat)
  <-> getNextCard 1000 1000 (1 # 2) threeCards futureStates = None.
Proof.
  apply (counters_zero_iff_nothing_to_show 1000 1000 (1 # 2) threeCards futureStates).
  - apply threeCards_cases; by eexists.
  - q_literal.
  - q_literal.
Defined.

(** X5. A card of the deck without a state is counted by [learnRemaining]
    (its phase defaults to "learn", its [seenCount] to 0) but is never
    returned by [getNextCard], which skips cards without a state: with such
    a card in the deck the test [learnRemaining === 0] stays false however
    often the selection returns [null]. *)
Theorem stateless_card_counted_never_shown
    (cards : list ReviewCard) (stateById : gmap string ReviewCardState)
    (c : ReviewCard) :
  c ∈ cards -> stateById !! card_id c = None ->
  (0 < learnRemaining cards stateById)%nat
  /\ (forall now now' u, (0 <= u)%Q -> (u < 1)%Q ->
        getNextCard now now' u cards stateById <> Some c)
  /\ ((forall c', c' ∈ cards -> stateById !! card_id c' = None) ->
      learnRemaining cards stateById = length cards
      /\ forall now now' u, getNextCard now now' u cards stateById = None).
Proof.
  intros Hc Hnone. split; [| split].
  - unfold learnRemaining.
    assert (Hin : c ∈ filter (fun c =>
              bool_decide (default learn (phase <$> stateById !! card_id c) = learn)
              && (seenOf stateById c <? 10)) cards).
    { apply list_elem_of_filter. split; [| done].
      unfold seenOf. rewrite Hnone. done. }
    destruct (filter _ cards); [by apply elem_of_nil in Hin | simpl; lia].
  - intros now now' u Hu0 Hu1 Hget.
    destruct (getNextCard_some stateById now now' u cards c Hu0 Hu1 Hget)
      as (_ & st & Hst & _).
    rewrite Hnone in Hst. discriminate Hst.
  - intros Hall. split.
    + unfold learnRemaining. f_equal. apply filter_all.
      intros d Hd. unfold seenOf. by rewrite (Hall d Hd).
    + intros now now' u. unfold getNextCard.
      rewrite (filter_none (fun c => isLearning stateById c) cards).
      * rewrite (filter_none (fun c => isDue now stateById c) cards); [done |].
        intros d Hd Hdue. apply Is_true_true in Hdue.
        unfold isDue in Hdue. rewrite (Hall d Hd) in Hdue. discriminate Hdue.
      * intros d Hd Hl. apply Is_true_true in Hl.
        unfold isLearning in Hl. rewrite (Hall d Hd) in Hl. discriminate Hl.
Qed.

Lemma stateless_card_counted_never_shown_witness :
  (0 < learnRemaining threeCards ∅)%nat
  /\ (forall now now' u, (0 <= u)%Q -> (u < 1)%Q ->
        getNextCard now now' u threeCards ∅ <> Some (sampleCard "a"))
  /\ ((forall c', c' ∈ threeCards ->
         (∅ : gmap string ReviewCardState) !! card_id c' = None) ->
      learnRemaining threeCards ∅ = length threeCards
      /\ forall now now' u, getNextCard now now' u threeCards ∅ = None).
Proof.
  apply (stateless_card_counted_never_shown threeCards ∅ (sampleCard "a")).
  - in_literal.
  - reflexivity.
Defined.

(** ** After a grade *)

Lemma gradedState_review_rests st grade now :
  phase (gradedState st grade now) = review ->
  now + 86400000 <= dueAt (gradedState st grade now).
Proof.
  unfold gradedState. destruct (phase st).
  - unfold learnStep; simpl.
    destruct (10 <=? seenCount st + 1); [| discriminate].
    intros _. unfold MS_PER_DAY. lia.
  - intros _. rewrite reviewStep_dueAt.
    pose proof (reviewStep_interval_pos st grade now). unfold MS_PER_DAY. lia.
Qed.

(** X6. A graded card is never due before the moment of its grade; and when
    the grade leaves it in review (a graduation or any review grade) it is
    due no sooner than one day later, so that [getNextCard] does not return
    it at any time before that, whatever the deck and the draw. *)
Theorem graded_card_rests_a_day
    (cardId : string) (grade : ReviewGrade) (now : Z) (state : AppState) :
  exists st',
    reviewCardState (recordReviewResult cardId grade now state) !! cardId = Some st'
    /\ now <= dueAt st'
    /\ (phase st' = review ->
        now + 86400000 <= dueAt st'
        /\ forall t t' u cards c,
             t < now + 86400000 -> (0 <= u)%Q -> (u < 1)%Q -> card_id c = cardId ->
             getNextCard t t' u cards
               (reviewCardState (recordReviewResult cardId grade now state))
             <> Some c).
Proof.
  rewrite recordReviewResult_lookup.
  set (prev := default initialReviewState (reviewCardState state !! cardId)).
  eexists; split; [reflexivity |]. split.
  - apply gradedState_due_not_before_now.
  - intros Hph. pose proof (gradedState_review_rests prev grade now Hph) as Hrest.
    split; [exact Hrest |].
    intros t t' u cards c Ht Hu0 Hu1 Hid Hget.
    destruct (getNextCard_some _ t t' u cards c Hu0 Hu1 Hget) as (_ & st & Hst & Hpool).
    rewrite Hid, recordReviewResult_lookup in Hst. injection Hst as <-.
    fold prev in Hpool. destruct Hpool as [[Hl _]|[_ Hd]]; [congruence | lia].
Qed.






(** ** Fairness of the learning pool *)

(** X9. Least-seen-first keeps the learning pool even: if no two cards of
    the pool are more than one exposure apart, and the card returned by
    [getNextCard] is graded, then again no two cards of the pool are more
    than one exposure apart. *)
Theorem least_seen_first_keeps_pool_even
    (now now' gradedAt : Z) (u : Q) (state : AppState) (c : ReviewCard)
    (grade : ReviewGrade) :
  (0 <= u)%Q -> (u < 1)%Q ->
  evenlySeen (reviewCards state) (reviewCardState state) ->
  getNextCard now now' u (reviewCards state) (reviewCardState state) = Some c ->
  evenlySeen (reviewCards state)
             (reviewCardState (recordReviewResult (card_id c) grade gradedAt state)).
Proof.
  intros Hu0 Hu1 Heven Hget.
  set (cards := reviewCards state) in *.
  set (stateById := reviewCardState state) in *.
  set (after := reviewCardState (recordReviewResult (card_id c) grade gradedAt state)).
  assert (Hother : forall d, card_id d <> card_id c ->
            after !! card_id d = stateById !! card_id d).
  { intros d Hne. unfold after. rewrite recordReviewResult_lookup_ne; [done |].
    intros Heq. by apply Hne. }
  destruct (getNextCard_some stateById now now' u cards c Hu0 Hu1 Hget)
    as (Hc & st & Hst & Hpools).
  assert (Hafter : after !! card_id c = Some (gradedState st grade gradedAt)).
  { unfold after. rewrite recordReviewResult_lookup. fold stateById.
    by rewrite Hst. }
  (* the seen counts of the new pool lie between the least old count and
     that count plus one *)
  assert (Hbounds : exists m,
            forall d, d ∈ learningPool cards after ->
                      m <= seenOf after d <= m + 1).
  { destruct (filter (fun c => isLearning stateById c) cards) as [|c1 rest] eqn:Hpool.
    - exists 0. intros d Hd. exfalso.
      apply learning_pool_elem in Hd as (Hdc & sd & Hsd & Hpd & Hseen).
      destruct (decide (card_id d = card_id c)) as [Heq|Hne].
      + rewrite Heq, Hafter in Hsd. injection Hsd as <-.
        destruct Hpools as [[Hl Hs]|[Hr _]].
        * assert (Hin : c ∈ filter (fun c => isLearning stateById c) cards).
          { apply learning_pool_elem. split; [done |]. by exists st. }
          rewrite Hpool in Hin. by apply elem_of_nil in Hin.
        * unfold gradedState in Hpd. rewrite Hr in Hpd.
          unfold reviewStep in Hpd.
          destruct (qualityFromGrade grade <? 3); discriminate Hpd.
      + rewrite (Hother d Hne) in Hsd.
        assert (Hin : d ∈ filter (fun c => isLearning stateById c) cards).
        { apply learning_pool_elem. split; [done |]. by exists sd. }
        rewrite Hpool in Hin. by apply elem_of_nil in Hin.
    - destruct (getNextCard_learning stateById now now' u cards c1 rest Hpool Hu0 Hu1)
        as (c' & Hget' & Hin & Hmin).
      rewrite Hget' in Hget. injection Hget as ->.
      rewrite <- Hpool in Hin, Hmin.
      pose proof Hin as Hin'.
      apply learning_pool_elem in Hin' as (_ & st0 & Hst0 & Hl0 & Hs0).
      rewrite Hst in Hst0. injection Hst0 as <-.
      exists (seenCount st). intros d Hd.
      apply learning_pool_elem in Hd as (Hdc & sd & Hsd & Hpd & Hseen).
      rewrite (seenOf_lookup after d sd Hsd).
      destruct (decide (card_id d = card_id c)) as [Heq|Hne].
      + rewrite Heq, Hafter in Hsd. injection Hsd as <-.
        unfold gradedState. rewrite Hl0. unfold learnStep; simpl. lia.
      + rewrite (Hother d Hne) in Hsd.
        assert (Hdin : d ∈ filter (fun c => isLearning stateById c) cards).
        { apply learning_pool_elem. split; [done |]. by exists sd. }
        pose proof (Hmin d Hdin) as Hlow.
        pose proof (Heven d c Hdin Hin) as Hhigh.
        rewrite (seenOf_lookup stateById d sd Hsd) in Hlow, Hhigh.
        rewrite (seenOf_lookup stateById c st Hst) in Hlow, Hhigh. lia. }
  destruct Hbounds as [m Hm].
  intros d d' Hd Hd'. pose proof (Hm d Hd). pose proof (Hm d' Hd'). lia.
Qed.

Lemma least_seen_first_keeps_pool_even_witness :
  evenlySeen (reviewCards sampleStore)
             (reviewCardState
                (recordReviewResult (card_id (sampleCard "c2")) good 2000 sampleStore)).
Proof.
  apply (least_seen_first_keeps_pool_even 1000 1000 2000 (99 # 100) sampleStore
           (sampleCard "c2") good).
  - q_literal.
  - q_literal.
  - intros d d' Hd Hd'.
    apply learning_pool_elem in Hd as (Hd & _), Hd' as (Hd' & _).
    assert (Hzero : forall x, x ∈ reviewCards sampleStore ->
              seenOf (reviewCardState sampleStore) x = 0).
    { intros x Hx. vm_compute in Hx.
      repeat (apply elem_of_cons in Hx as [->|Hx]; [reflexivity |]).
      by apply elem_of_nil in Hx. }
    rewrite (Hzero d Hd), (Hzero d' Hd'). lia.
  - reflexivity.
Defined.

(** ** Hydration *)

Lemma Map_set_keys key value (m : list (string * ReviewCard)) :
  map fst (Map_set key value m)
  = if decide (key ∈ map fst m) then map fst m else map fst m ++ [key].
Proof.
  induction m as [|[k v] m IH]; simpl.
  - destruct (decide (key ∈ [])) as [Hin|_]; [by apply elem_of_nil in Hin | done].
  - destruct (decide (k = key)) as [->|Hne]; simpl.
    + destruct (decide (key ∈ key :: map fst m)) as [_|Hno]; [done |].
      exfalso. apply Hno, list_elem_of_here.
    + rewrite IH.
      destruct (decide (key ∈ map fst m)) as [Hin|Hno],
               (decide (key ∈ k :: map fst m)) as [Hin'|Hno']; try done.
      * exfalso. by apply Hno', list_elem_of_further.
      * apply elem_of_cons in Hin' as [->|Hin']; [by destruct Hne | by destruct Hno].
Qed.

Lemma Map_set_fresh key value (m : list (string * ReviewCard)) :
  key ∉ map fst m -> Map_set key value m = m ++ [(key, value)].
Proof.
  induction m as [|[k v] m IH]; intros Hfresh; simpl; [done |].
  simpl in Hfresh. apply not_elem_of_cons in Hfresh as [Hne Hfresh].
  destruct (decide (k = key)) as [->|_]; [done |].
  by rewrite IH.
Qed.

Lemma Map_set_elem key value (m : list (string * ReviewCard)) k v :
  NoDup (map fst m) ->
  (k, v) ∈ Map_set key value m
  <-> (k = key /\ v = value) \/ (k <> key /\ (k, v) ∈ m).
Proof.
  induction m as [|[k0 v0] m IH]; intros Hnd; simpl.
  - rewrite list_elem_of_singleton. split.
    + intros [= -> ->]. by left.
    + intros [[-> ->]|[_ Hin]]; [done | by apply elem_of_nil in Hin].
  - simpl in Hnd. apply NoDup_cons in Hnd as [Hk0 Hnd].
    destruct (decide (k0 = key)) as [->|Hne].
    + rewrite !elem_of_cons. split.
      * intros [[= -> ->]|Hin]; [by left |].
        right. split; [| by right].
        intros ->. apply Hk0. apply list_elem_of_fmap. by exists (key, v).
      * intros [[-> ->]|[Hk [[= -> ->]|Hin]]]; [by left | done | by right].
    + rewrite !elem_of_cons, (IH Hnd). split.
      * intros [[= -> ->]|[[-> ->]|[Hk Hin]]].
        -- right. split; [done | by left].
        -- by left.
        -- right. split; [done | by right].
      * intros [[-> ->]|[Hk [[= -> ->]|Hin]]].
        -- right. by left.
        -- by left.
        -- right. right. by split.
Qed.

Lemma keyedById_set value (m : list (string * ReviewCard)) :
  keyedById m -> keyedById (Map_set (card_id value) value m).
Proof.
  intros [Hnd Hkey]. split.
  - rewrite Map_set_keys. destruct (decide _) as [_|Hfresh]; [done |].
    apply NoDup_app. split; [done |]. split; [| apply NoDup_singleton].
    intros x Hx Hx'. apply list_elem_of_singleton in Hx'. by subst x.
  - intros k v Hin. apply Map_set_elem in Hin as [[-> ->]|[_ Hin]]; [done | | done].
    by apply Hkey.
Qed.

Lemma Map_setAll_cons c cards m :
  Map_setAll (c :: cards) m = Map_setAll cards (Map_set (card_id c) c m).
Proof. reflexivity. Qed.

Lemma Map_setAll_app cards1 cards2 m :
  Map_setAll (cards1 ++ cards2) m = Map_setAll cards2 (Map_setAll cards1 m).
Proof. unfold Map_setAll. by rewrite foldl_app. Qed.

Lemma keyedById_setAll cards : forall m, keyedById m -> keyedById (Map_setAll cards m).
Proof.
  induction cards as [|c cards IH]; intros m Hm; [done |].
  rewrite Map_setAll_cons. by apply IH, keyedById_set.
Qed.

Lemma keyedById_nil : keyedById [].
Proof. split; [apply NoDup_nil_2 | intros k v Hin; by apply elem_of_nil in Hin]. Qed.

Lemma Map_setAll_keys cards : forall m (k : string),
  k ∈ map fst (Map_setAll cards m) <-> k ∈ map fst m \/ k ∈ map card_id cards.
Proof.
  induction cards as [|c cards IH]; intros m k.
  - simpl. split; [by left | intros [H|H]; [done | by apply elem_of_nil in H]].
  - rewrite Map_setAll_cons, IH, Map_set_keys. simpl. rewrite elem_of_cons.
    destruct (decide (card_id c ∈ map fst m)) as [Hin|Hno].
    + split; [tauto |]. intros [H|[->|H]]; tauto.
    + rewrite elem_of_app, list_elem_of_singleton. tauto.
Qed.

(** A key that is already present keeps the keys as they are. *)
Lemma Map_setAll_known_keys cards : forall m,
  (forall c, c ∈ cards -> card_id c ∈ map fst m) ->
  map fst (Map_setAll cards m) = map fst m.
Proof.
  induction cards as [|c cards IH]; intros m Hknown; [done |].
  assert (Hc : card_id c ∈ map fst m) by (apply Hknown, list_elem_of_here).
  assert (Hkeys : map fst (Map_set (card_id c) c m) = map fst m).
  { rewrite Map_set_keys. by destruct (decide _). }
  rewrite Map_setAll_cons, IH, Hkeys; [done |].
  intros d Hd. rewrite Hkeys. by apply Hknown, list_elem_of_further.
Qed.

Lemma lastWithId_cons id c cards :
  lastWithId id (c :: cards)
  = match lastWithId id cards with
    | Some d => Some d
    | None => if decide (card_id c = id) then Some c else None
    end.
Proof.
  unfold lastWithId. rewrite filter_cons.
  destruct (decide (card_id c = id)) as [Heq|Hne]; [| by destruct (last _)].
  destruct (filter _ cards) as [|d ds]; [done |].
  rewrite last_cons. destruct (last (d :: ds)) eqn:Hlast; [done |].
  by apply last_None in Hlast.
Qed.

(** The entries after a run of [set]s: a key set during the run holds the
    last card set under it, any other key holds what it held. *)
Lemma Map_setAll_elem cards : forall m k v,
  keyedById m ->
  (k, v) ∈ Map_setAll cards m
  <-> lastWithId k cards = Some v \/ (lastWithId k cards = None /\ (k, v) ∈ m).
Proof.
  induction cards as [|c cards IH]; intros m k v Hm.
  - simpl. unfold lastWithId; simpl. split; [by right | intros [H|[_ H]]; done].
  - rewrite Map_setAll_cons, (IH _ k v (keyedById_set c m Hm)).
    rewrite lastWithId_cons, (Map_set_elem _ _ _ _ _ (proj1 Hm)).
    destruct (lastWithId k cards) as [d|]; [split; intros [H|[H _]]; by (left || done) |].
    destruct (decide (card_id c = k)) as [Heq|Hne].
    + split.
      * intros [H|[_ [[_ ->]|[Hk _]]]]; [done | by left | by destruct Hk].
      * intros [[= ->]|[H _]]; [| done]. right. split; [done |]. by left.
    + split.
      * intros [H|[_ [[-> _]|[_ Hin]]]]; [done | by destruct Hne |]. by right.
      * intros [H|[_ Hin]]; [done |]. right. split; [done |]. right.
        split; [| done]. intros ->. by destruct Hne.
Qed.

(** Cards with fresh, distinct ids are appended in their order. *)
Lemma Map_setAll_fresh cards : forall m,
  NoDup (map fst m ++ map card_id cards) ->
  Map_setAll cards m = m ++ map (fun c => (card_id c, c)) cards.
Proof.
  induction cards as [|c cards IH]; intros m Hnd.
  - simpl. by rewrite app_nil_r.
  - rewrite Map_setAll_cons. simpl in Hnd.
    assert (Hfresh : card_id c ∉ map fst m).
    { apply NoDup_app in Hnd as (_ & Hdisj & _).
      intros Hin. apply (Hdisj _ Hin), list_elem_of_here. }
    rewrite (Map_set_fresh _ _ _ Hfresh), IH.
    + by rewrite <- app_assoc.
    + rewrite map_app. simpl. rewrite <- app_assoc. exact Hnd.
Qed.

Lemma keyedById_ids (m : list (string * ReviewCard)) :
  keyedById m -> map card_id (map snd m) = map fst m.
Proof.
  intros [_ Hkey]. induction m as [|[k v] m IH]; [done |].
  simpl. rewrite (Hkey k v) by apply list_elem_of_here.
  f_equal. apply IH. intros k' v' Hin. by apply Hkey, list_elem_of_further.
Qed.

Lemma keyedById_values (m : list (string * ReviewCard)) c :
  keyedById m -> c ∈ map snd m <-> (card_id c, c) ∈ m.
Proof.
  intros [_ Hkey]. rewrite list_elem_of_fmap. split.
  - intros ([k v] & -> & Hin). simpl. by rewrite (Hkey k v Hin).
  - intros Hin. by exists (card_id c, c).
Qed.

(** Two [byId] maps with the same keys in the same order and the same
    entries are the same map. *)
Lemma keyedById_ext (m1 : list (string * ReviewCard)) : forall m2,
  NoDup (map fst m1) -> map fst m1 = map fst m2 ->
  (forall k v, (k, v) ∈ m1 <-> (k, v) ∈ m2) -> m1 = m2.
Proof.
  induction m1 as [|[k1 v1] m1 IH]; intros [|[k2 v2] m2] Hnd Hkeys Hext;
    try done.
  simpl in Hkeys. injection Hkeys as -> Hkeys.
  simpl in Hnd. apply NoDup_cons in Hnd as [Hk2 Hnd].
  assert (Hv : v1 = v2).
  { assert (Hin : (k2, v1) ∈ (k2, v2) :: m2) by (apply Hext, list_elem_of_here).
    apply elem_of_cons in Hin as [[= ->]|Hin]; [done |].
    exfalso. apply Hk2. rewrite Hkeys. apply list_elem_of_fmap. by exists (k2, v1). }
  subst v2. f_equal. apply IH; [done | done |].
  intros k v. split; intros Hin.
  - assert (H : (k, v) ∈ (k2, v1) :: m2) by (apply Hext; by apply list_elem_of_further).
    apply elem_of_cons in H as [[= -> ->]|H]; [| done].
    exfalso. apply Hk2. apply list_elem_of_fmap. by exists (k2, v1).
  - assert (H : (k, v) ∈ (k2, v1) :: m1) by (apply Hext; by apply list_elem_of_further).
    apply elem_of_cons in H as [[= -> ->]|H]; [| done].
    exfalso. apply Hk2. rewrite Hkeys. apply list_elem_of_fmap. by exists (k2, v1).
Qed.

Lemma hydrated_cards_any_states cards states state :
  reviewCards (hydrateReviewFromServer cards states state)
  = map snd (Map_setAll (reviewCards state ++ cards) []).
Proof. unfold hydrateReviewFromServer; simpl. by rewrite Map_setAll_app. Qed.

Lemma hydrated_deck_ids cards states state (id : string) :
  id ∈ map card_id (reviewCards (hydrateReviewFromServer cards states state))
  <-> id ∈ map card_id (reviewCards state) \/ id ∈ map card_id cards.
Proof.
  rewrite hydrated_cards_any_states.
  set (byId := Map_setAll (reviewCards state ++ cards) []).
  assert (Hkeyed : keyedById byId) by apply keyedById_setAll, keyedById_nil.
  rewrite (keyedById_ids byId Hkeyed).
  unfold byId. rewrite Map_setAll_keys, map_app, elem_of_app. simpl.
  split; [intros [H|H]; [by apply elem_of_nil in H | done] | by right].
Qed.

(** X10. After a hydration no two cards of the deck share an id, the ids of
    the deck are those of the local deck and of the snapshot, and the card
    kept for an id is the last one set under it: the snapshot's card where
    the snapshot has the id (the last such card if it has several), the
    local one otherwise. *)
Theorem hydrated_deck_last_card_wins
    (cards : list ReviewCard) (states : gmap string ReviewCardState)
    (state : AppState) :
  NoDup (map card_id (reviewCards (hydrateReviewFromServer cards states state)))
  /\ (forall id : string,
        id ∈ map card_id (reviewCards (hydrateReviewFromServer cards states state))
        <-> id ∈ map card_id (reviewCards state) \/ id ∈ map card_id cards)
  /\ (forall c,
        c ∈ reviewCards (hydrateReviewFromServer cards states state)
        <-> lastWithId (card_id c) (reviewCards state ++ cards) = Some c).
Proof.
  rewrite hydrated_cards_any_states.
  set (byId := Map_setAll (reviewCards state ++ cards) []).
  assert (Hkeyed : keyedById byId) by apply keyedById_setAll, keyedById_nil.
  rewrite (keyedById_ids byId Hkeyed).
  split; [apply Hkeyed |]. split.
  - intros id. unfold byId. rewrite Map_setAll_keys, map_app, elem_of_app. simpl.
    split; [intros [H|H]; [by apply elem_of_nil in H | done] | by right].
  - intros c. rewrite (keyedById_values byId c Hkeyed). unfold byId.
    rewrite (Map_setAll_elem _ _ _ _ keyedById_nil).
    split; [intros [H|[_ H]]; [done | by apply elem_of_nil in H] | by left].
Qed.

(** X11. Hydration merges the states with the snapshot winning: an id with a
    state in the snapshot takes that state, any other id keeps its local
    state; and when every local card has a local state and every snapshot
    card has a snapshot state, every card of the hydrated deck has a
    state. *)
Theorem hydrated_states_remote_wins
    (cards : list ReviewCard) (states : gmap string ReviewCardState)
    (state : AppState) :
  (forall id : string,
     reviewCardState (hydrateReviewFromServer cards states state) !! id
     = match states !! id with
       | Some st => Some st
       | None => reviewCardState state !! id
       end)
  /\ ((forall c, c ∈ reviewCards state -> is_Some (reviewCardState state !! card_id c)) ->
      (forall c, c ∈ cards -> is_Some (states !! card_id c)) ->
      forall c, c ∈ reviewCards (hydrateReviewFromServer cards states state) ->
                is_Some (reviewCardState (hydrateReviewFromServer cards states state)
                           !! card_id c)).
Proof.
  assert (Hlook : forall id : string,
            reviewCardState (hydrateReviewFromServer cards states state) !! id
            = match states !! id with
              | Some st => Some st
              | None => reviewCardState state !! id
              end).
  { intros id. unfold hydrateReviewFromServer; simpl. rewrite lookup_union.
    by destruct (states !! id), (reviewCardState state !! id). }
  split; [exact Hlook |].
  intros Hlocal Hremote c Hc. rewrite Hlook.
  destruct (states !! card_id c) as [st|] eqn:Hst; [by eexists |].
  destruct (hydrated_deck_ids cards states state (card_id c)) as [Hids _].
  destruct Hids as [Hin|Hin].
  - apply list_elem_of_fmap. by exists c.
  - apply list_elem_of_fmap in Hin as (d & Hd & Hin). rewrite Hd. by apply Hlocal.
  - apply list_elem_of_fmap in Hin as (d & Hd & Hin).
    destruct (Hremote d Hin) as [st Hst']. rewrite <- Hd, Hst in Hst'. discriminate Hst'.
Qed.

(** Setting the same cards a second time changes nothing. *)
Lemma Map_setAll_twice cards m :
  keyedById m -> Map_setAll cards (Map_setAll cards m) = Map_setAll cards m.
Proof.
  intros Hm.
  assert (Hkeyed : keyedById (Map_setAll cards m)) by by apply keyedById_setAll.
  assert (Hkeyed' : keyedById (Map_setAll cards (Map_setAll cards m)))
    by by apply keyedById_setAll.
  apply keyedById_ext.
  - apply Hkeyed'.
  - apply Map_setAll_known_keys. intros c Hc.
    apply Map_setAll_keys. right. apply list_elem_of_fmap. by exists c.
  - intros k v. rewrite (Map_setAll_elem cards _ k v Hkeyed).
    rewrite (Map_setAll_elem cards m k v Hm).
    destruct (lastWithId k cards) as [d|]; [| tauto].
    split; [intros [H|[H _]]; [by left | done] | intros [H|[H _]]; [by left | done]].
Qed.

(** A [byId] map is rebuilt from its own values. *)
Lemma Map_setAll_values (m : list (string * ReviewCard)) :
  keyedById m -> Map_setAll (map snd m) [] = m.
Proof.
  intros Hm. rewrite Map_setAll_fresh.
  - simpl. destruct Hm as [_ Hkey].
    induction m as [|[k v] m IH]; [done |].
    simpl. rewrite (Hkey k v) by apply list_elem_of_here.
    f_equal. apply IH. intros k' v' Hin. by apply Hkey, list_elem_of_further.
  - simpl. rewrite (keyedById_ids m Hm). apply Hm.
Qed.

(** X12. Hydration is idempotent: applying the same snapshot a second time
    leaves the store, deck and states, exactly as the first application
    left it. *)
Theorem hydration_is_idempotent
    (cards : list ReviewCard) (states : gmap string ReviewCardState)
    (state : AppState) :
  hydrateReviewFromServer cards states (hydrateReviewFromServer cards states state)
  = hydrateReviewFromServer cards states state.
Proof.
  unfold hydrateReviewFromServer; simpl.
  set (local := Map_setAll (reviewCards state) []).
  assert (Hlocal : keyedById local) by apply keyedById_setAll, keyedById_nil.
  assert (Hbyid : keyedById (Map_setAll cards local)) by by apply keyedById_setAll.
  f_equal.
  - rewrite (Map_setAll_values _ Hbyid). by rewrite Map_setAll_twice.
  - apply map_eq. intros id. rewrite !lookup_union.
    by destruct (states !! id), (reviewCardState state !! id).
Qed.

(** X13. When no id occurs twice among the local cards and the cards of the
    snapshot, hydration appends the snapshot's cards to the deck in their
    order; with an empty snapshot it leaves the whole store as it is. *)
Theorem hydration_appends_new_cards
    (cards : list ReviewCard) (states : gmap string ReviewCardState)
    (state : AppState) :
  NoDup (map card_id (reviewCards state ++ cards)) ->
  reviewCards (hydrateReviewFromServer cards states state) = reviewCards state ++ cards
  /\ (cards = [] -> hydrateReviewFromServer cards ∅ state = state).
Proof.
  intros Hnd.
  assert (Hdeck : forall sts,
            reviewCards (hydrateReviewFromServer cards sts state)
            = reviewCards state ++ cards).
  { intros sts. rewrite hydrated_cards_any_states, Map_setAll_fresh by exact Hnd.
    simpl. rewrite map_map. simpl. apply map_id. }
  split; [apply Hdeck |].
  intros ->. destruct state as [deck sts].
  specialize (Hdeck ∅). unfold hydrateReviewFromServer in *; simpl in *.
  rewrite app_nil_r in Hdeck. f_equal; [exact Hdeck |].
  apply (left_id_L ∅ (∪)).
Qed.

Lemma hydration_appends_new_cards_witness :
  reviewCards (hydrateReviewFromServer [seedCard1] ∅ sampleStore)
  = reviewCards sampleStore ++ [seedCard1]
  /\ ([seedCard1] = [] -> hydrateReviewFromServer [seedCard1] ∅ sampleStore = sampleStore).
Proof.
  apply (hydration_appends_new_cards [seedCard1] ∅ sampleStore).
  vm_compute. repeat (apply NoDup_cons; split; [not_in_literal |]). apply NoDup_nil_2.
Defined.

(** ** The shuffle of the code-ordering card *)

(** [Math.floor(u * n)] for a draw [u] in [0, 1) and a positive [n] is an
    index below [n]. *)
Lemma floor_of_draw (u : Q) (n : Z) :
  (0 <= u)%Q -> (u < 1)%Q -> 0 < n ->
  0 <= Qfloor (u * inject_Z n) < n.
Proof.
  intros Hu0 Hu1 Hn.
  assert (Hn' : (0 < inject_Z n)%Q) by (rewrite Zlt_Qlt in Hn; exact Hn).
  split.
  - apply (Z.le_trans _ (Qfloor 0)); [reflexivity |].
    apply Qfloor_resp_le. apply Qmult_le_0_compat; [done | by apply Qlt_le_weak].
  - rewrite Zlt_Qlt.
    apply (Qle_lt_trans _ (u * inject_Z n)); [apply Qfloor_le |].
    apply (Qlt_le_trans _ (1 * inject_Z n)); [| rewrite Qmult_1_l; apply Qle_refl].
    by apply Qmult_lt_compat_r.
Qed.

Lemma swapAt_perm {A} (copy : list A) (i j : nat) :
  (i < length copy)%nat -> (j < length copy)%nat ->
  exists copy', swapAt copy i j = Some copy' /\ copy' ≡ₚ copy
                /\ length copy' = length copy.
Proof.
  intros Hi Hj. unfold swapAt.
  destruct (lookup_lt_is_Some_2 copy i Hi) as [ci Hci].
  destruct (lookup_lt_is_Some_2 copy j Hj) as [cj Hcj].
  rewrite Hci, Hcj. eexists. split; [reflexivity |]. split.
  - by apply Permutation_insert_swap.
  - by rewrite !length_insert.
Qed.

Lemma shuffleLoop_step {A} (rnd : nat -> Q) (call i : nat) (copy : list A) :
  shuffleLoop rnd call (S i) copy
  = if Qfloor (rnd call * inject_Z (Z.of_nat (S i) + 1)) <? 0 then None
    else match swapAt copy (S i)
                 (Z.to_nat (Qfloor (rnd call * inject_Z (Z.of_nat (S i) + 1)))) with
         | Some copy' => shuffleLoop rnd (S call) i copy'
         | None => None
         end.
Proof. reflexivity. Qed.

Lemma shuffleLoop_perm {A} (rnd : nat -> Q) (i : nat) : forall call (copy : list A),
  (forall k, (0 <= rnd k)%Q /\ (rnd k < 1)%Q) ->
  (i < length copy)%nat ->
  exists copy', shuffleLoop rnd call i copy = Some copy' /\ copy' ≡ₚ copy.
Proof.
  induction i as [|i IH]; intros call copy Hrnd Hi.
  - by exists copy.
  - rewrite shuffleLoop_step.
    destruct (Hrnd call) as [Hu0 Hu1].
    destruct (floor_of_draw (rnd call) (Z.of_nat (S i) + 1) Hu0 Hu1) as [Hlo Hhi];
      [lia |].
    set (j := Qfloor (rnd call * inject_Z (Z.of_nat (S i) + 1))) in *.
    assert (Hnonneg : (j <? 0) = false) by (apply Z.ltb_ge; lia).
    rewrite Hnonneg.
    destruct (swapAt_perm copy (S i) (Z.to_nat j)) as (copy' & Hswap & Hperm & Hlen);
      [lia | lia |].
    rewrite Hswap.
    destruct (IH (S call) copy' Hrnd) as (copy'' & Hloop & Hperm'); [lia |].
    exists copy''. split; [exact Hloop |]. by rewrite Hperm'.
Qed.

(** X14. [shuffle] returns a rearrangement of its input: for any draws in
    [0, 1) every index it computes is in range and the result is a
    permutation of the array (the same elements, each as often as before,
    and so the same length). *)
Theorem shuffle_is_a_permutation {A} (rnd : nat -> Q) (arr : list A) :
  (forall k, (0 <= rnd k)%Q /\ (rnd k < 1)%Q) ->
  exists shuffled, shuffle rnd arr = Some shuffled
                   /\ shuffled ≡ₚ arr
                   /\ length shuffled = length arr.
Proof.
  intros Hrnd. unfold shuffle.
  destruct arr as [|x arr].
  - exists []. by repeat split.
  - destruct (shuffleLoop_perm rnd (length (x :: arr) - 1) 0 (x :: arr) Hrnd)
      as (shuffled & Hloop & Hperm); [simpl; lia |].
    exists shuffled. split; [exact Hloop |]. split; [exact Hperm |].
    by rewrite Hperm.
Qed.

Lemma shuffle_is_a_permutation_witness :
  exists shuffled, shuffle (fun _ => 1 # 2) ["l1"; "l2"; "l3"; "l4"] = Some shuffled
                   /\ shuffled ≡ₚ ["l1"; "l2"; "l3"; "l4"]
                   /\ length shuffled = length ["l1"; "l2"; "l3"; "l4"].
Proof.
  apply (shuffle_is_a_permutation (fun _ => 1 # 2) ["l1"; "l2"; "l3"; "l4"]).
  intros k. split; q_literal.
Defined.

(** ** The payload of a state flush *)

Lemma payload_entries_lookup (latest : gmap string ReviewCardState)
    (entries : list (string * ReviewCardState)) :
  forall (acc : gmap string ReviewCardState) (id : string),
  (forall e, e ∈ entries -> latest !! fst e = Some (snd e)) ->
  foldl (fun obj entry => <[fst entry := snd entry]> obj) acc entries !! id
  = if decide (id ∈ map fst entries) then latest !! id else acc !! id.
Proof.
  induction entries as [|[k v] entries IH]; intros acc id Hlatest.
  - simpl. destruct (decide (id ∈ [])) as [Hin|_]; [by apply elem_of_nil in Hin | done].
  - simpl foldl. rewrite IH by (intros e He; by apply Hlatest, list_elem_of_further).
    simpl map.
    destruct (decide (id ∈ map fst entries)) as [Hin|Hno],
             (decide (id ∈ k :: map fst entries)) as [Hin'|Hno']; try done.
    + exfalso. by apply Hno', list_elem_of_further.
    + apply elem_of_cons in Hin' as [->|Hin']; [| done].
      rewrite lookup_insert_eq. symmetry. apply (Hlatest (k, v)), list_elem_of_here.
    + rewrite lookup_insert_ne; [done |].
      intros <-. apply Hno', list_elem_of_here.
Qed.

Lemma statesPayload_lookup (ids : list string) (latest : gmap string ReviewCardState)
    (id : string) :
  statesPayload ids latest !! id = if decide (id ∈ ids) then latest !! id else None.
Proof.
  unfold statesPayload.
  set (entries := omap (fun id => (fun st => (id, st)) <$> latest !! id) ids).
  assert (Hentries : forall e, e ∈ entries <-> fst e ∈ ids /\ latest !! fst e = Some (snd e)).
  { intros [k v]. unfold entries. rewrite list_elem_of_omap. simpl. split.
    - intros (i & Hi & Hsome). destruct (latest !! i) as [st|] eqn:Hst; [| done].
      simpl in Hsome. injection Hsome as <- <-. by split.
    - intros [Hk Hv]. exists k. split; [done |]. by rewrite Hv. }
  rewrite (payload_entries_lookup latest entries ∅ id)
    by (intros e He; by apply Hentries).
  rewrite lookup_empty.
  destruct (decide (id ∈ map fst entries)) as [Hin|Hno], (decide (id ∈ ids)) as [Hi|Hni];
    try done.
  - exfalso. apply list_elem_of_fmap in Hin as (e & -> & He).
    apply Hentries in He as [He _]. by apply Hni.
  - destruct (latest !! id) as [st|] eqn:Hst; [| done].
    exfalso. apply Hno. apply list_elem_of_fmap. exists (id, st). split; [done |].
    by apply Hentries.
Qed.

Lemma recordReviewResult_keeps_states cardId grade now state (id : string) :
  is_Some (reviewCardState state !! id) ->
  is_Some (reviewCardState (recordReviewResult cardId grade now state) !! id).
Proof.
  intros Hsome. destruct (decide (cardId = id)) as [<-|Hne].
  - rewrite recordReviewResult_lookup. by eexists.
  - by rewrite recordReviewResult_lookup_ne.
Qed.

Lemma recordEvents_graded_has_state events : forall state (id : string),
  id ∈ map (fun ev => fst (fst ev)) events \/ is_Some (reviewCardState state !! id) ->
  is_Some (reviewCardState (recordEvents events state) !! id).
Proof.
  induction events as [|[[cid g] now] events IH]; intros state id Hid.
  - destruct Hid as [Hin|Hsome]; [by apply elem_of_nil in Hin | done].
  - simpl. apply IH. destruct Hid as [Hin|Hsome].
    + simpl in Hin. apply elem_of_cons in Hin as [->|Hin]; [| by left].
      right. rewrite recordReviewResult_lookup. by eexists.
    + right. by apply recordReviewResult_keeps_states.
Qed.

(** X15. A flush sends exactly the pending cards, each with its latest
    state: when the pending ids are the ids graded during a session, the
    payload has an entry for every graded id, that entry is the state the
    store holds after the whole session (several grades of a card are sent
    as one), and no other id is in the payload. *)
Theorem flush_sends_latest_states_of_graded_cards
    (events : list (string * ReviewGrade * Z)) (state : AppState)
    (ids : list string) :
  (forall id : string, id ∈ ids <-> id ∈ map (fun ev => fst (fst ev)) events) ->
  forall id : string,
    (id ∈ ids ->
     is_Some (statesPayload ids (reviewCardState (recordEvents events state)) !! id)
     /\ statesPayload ids (reviewCardState (recordEvents events state)) !! id
        = reviewCardState (recordEvents events state) !! id)
    /\ (id ∉ ids ->
        statesPayload ids (reviewCardState (recordEvents events state)) !! id = None).
Proof.
  intros Hids id. rewrite statesPayload_lookup.
  destruct (decide (id ∈ ids)) as [Hin|Hno]; split; try done.
  intros _. split; [| done].
  apply recordEvents_graded_has_state. left. by apply Hids.
Qed.

Lemma flush_sends_latest_states_of_graded_cards_witness :
  ("c1" ∈ ["c1"; "c2"] ->
   is_Some (statesPayload ["c1"; "c2"]
              (reviewCardState (recordEvents nineGradesOfC1 sampleStore)) !! "c1")
   /\ statesPayload ["c1"; "c2"]
        (reviewCardState (recordEvents nineGradesOfC1 sampleStore)) !! "c1"
      = reviewCardState (recordEvents nineGradesOfC1 sampleStore) !! "c1")
  /\ ("c1" ∉ ["c1"; "c2"] ->
      statesPayload ["c1"; "c2"]
        (reviewCardState (recordEvents nineGradesOfC1 sampleStore)) !! "c1" = None).
Proof.
  apply (flush_sends_latest_states_of_graded_cards nineGradesOfC1 sampleStore
           ["c1"; "c2"]).
  intros id. vm_compute. split; intros Hin.
  - repeat (apply elem_of_cons in Hin as [->|Hin]; [in_literal |]).
    by apply elem_of_nil in Hin.
  - repeat (apply elem_of_cons in Hin as [->|Hin]; [in_literal |]).
    by apply elem_of_nil in Hin.
Defined.

(** ** The legacy flashcard scheduler *)

(** X16. On a graduated card the review scheduler is the legacy SM-2 update
    of [updateFlashcard] for every grade but Easy: with an interval of at
    least one day and an ease of at least 1.3, grading Again, Hard or Good
    gives the interval, repetition, ease and due time that [updateFlashcard]
    computes from the same fields with the grade's quality. *)
Theorem review_step_is_legacy_update_below_easy
    (st : ReviewCardState) (grade : ReviewGrade) (now : Z) :
  phase st = review -> grade <> easy ->
  1 <= interval st -> (13 # 10 <= efactor st)%Q ->
  updatedFlashcard (asFlashcardState st) (qualityFromGrade grade) now
  = asFlashcardState (gradedState st grade now).
Proof.
  intros Hph Hg Hi He. unfold gradedState. rewrite Hph.
  unfold updatedFlashcard, reviewStep, asFlashcardState.
  destruct grade; try congruence; cbn -[Math_round nextEfactor Z.mul Z.add Z.max];
    try reflexivity.
  destruct (repetition st =? 0); [reflexivity |].
  destruct (repetition st =? 1); [reflexivity |].
  cbn -[Math_round nextEfactor Z.mul Z.add Z.max].
  rewrite max_one_inert by (try done; lra).
  change (double_mul (inject_Z (interval st)) (efactor st))
    with (double (inject_Z (interval st) * efactor st)).
  rewrite double_mul_one. reflexivity.
Qed.

Lemma review_step_is_legacy_update_below_easy_witness :
  updatedFlashcard (asFlashcardState fc1Graduated) (qualityFromGrade good) 20000
  = asFlashcardState (gradedState fc1Graduated good 20000).
Proof.
  apply (review_step_is_legacy_update_below_easy fc1Graduated good 20000).
  - reflexivity.
  - discriminate.
  - simpl. lia.
  - simpl. q_literal.
Defined.

Lemma clamp_is_max (x floor : Q) :
  ((if Qlt_le_dec x floor then floor else x) == Qmax floor x)%Q.
Proof.
  destruct (Qlt_le_dec x floor) as [Hlt|Hge].
  - rewrite Q.max_l by (by apply Qlt_le_weak). reflexivity.
  - rewrite Q.max_r by done. reflexivity.
Qed.

Lemma review_ease_as_max (st : ReviewCardState) (grade : ReviewGrade) (now : Z) :
  phase st = review ->
  (efactor (gradedState st grade now)
   == Qmax (double (13 # 10))
           (double (efactor st + easeDelta (qualityFromGrade grade))))%Q.
Proof.
  intros Hph. unfold gradedState. rewrite Hph, reviewStep_efactor.
  unfold nextEfactor, double_add. apply clamp_is_max.
Qed.

(** X17. The change of ease is fixed by the grade, in double arithmetic: on
    a card in review the new ease is the larger of the double 1.3 and the
    double nearest to the old ease plus a term that only depends on the
    grade, which is 0 for Good, the double 0.1 for Easy,
    -0.32000000000000006 for Hard and the double -0.54 for Again.  So Good
    leaves a stored ease at or above the double 1.3 as it is, and Hard on an
    ease of 2.5 gives 2.1799999999999997. *)
Theorem ease_change_per_grade (st : ReviewCardState) (now : Z) :
  phase st = review ->
  (efactor (gradedState st good now)
   == Qmax (double (13 # 10)) (double (efactor st)))%Q
  /\ (efactor (gradedState st easy now)
      == Qmax (double (13 # 10))
              (double (efactor st + (3602879701896397 # 36028797018963968))))%Q
  /\ (efactor (gradedState st hard now)
      == Qmax (double (13 # 10))
              (double (efactor st - (1441151880758559 # 4503599627370496))))%Q
  /\ (efactor (gradedState st again now)
      == Qmax (double (13 # 10))
              (double (efactor st - (607985949695017 # 1125899906842624))))%Q
  /\ ((double (efactor st) == efactor st)%Q -> (double (13 # 10) <= efactor st)%Q ->
      (efactor (gradedState st good now) == efactor st)%Q)
  /\ ((efactor st == 5 # 2)%Q ->
      (efactor (gradedState st hard now) == 306807724614615 # 140737488355328)%Q).
Proof.
  intros Hph.
  assert (Hgood : (efactor (gradedState st good now)
                   == Qmax (double (13 # 10)) (double (efactor st)))%Q).
  { rewrite (review_ease_as_max st good now Hph). simpl qualityFromGrade.
    rewrite easeDelta_good.
    rewrite (double_proper (efactor st + 0) (efactor st)) by ring. reflexivity. }
  assert (Hhard : (efactor (gradedState st hard now)
                   == Qmax (double (13 # 10))
                        (double (efactor st
                                 - (1441151880758559 # 4503599627370496))))%Q).
  { rewrite (review_ease_as_max st hard now Hph). simpl qualityFromGrade.
    rewrite easeDelta_hard. reflexivity. }
  split; [exact Hgood |]. split; [| split; [exact Hhard |]; split; [| split]].
  - rewrite (review_ease_as_max st easy now Hph). simpl qualityFromGrade.
    rewrite easeDelta_easy. reflexivity.
  - rewrite (review_ease_as_max st again now Hph). simpl qualityFromGrade.
    rewrite easeDelta_again. reflexivity.
  - intros Hdouble Hfloor. rewrite Hgood, Hdouble. by apply Q.max_r.
  - intros He. rewrite Hhard.
    rewrite (double_proper (efactor st - (1441151880758559 # 4503599627370496))
               ((5 # 2) - (1441151880758559 # 4503599627370496)))
      by (by rewrite He).
    vm_compute. reflexivity.
Qed.

Lemma ease_change_per_grade_witness :
  (efactor (gradedState fc1Graduated good 20000)
   == Qmax (double (13 # 10)) (double (efactor fc1Graduated)))%Q
  /\ (efactor (gradedState fc1Graduated easy 20000)
      == Qmax (double (13 # 10))
              (double (efactor fc1Graduated + (3602879701896397 # 36028797018963968))))%Q
  /\ (efactor (gradedState fc1Graduated hard 20000)
      == Qmax (double (13 # 10))
              (double (efactor fc1Graduated - (1441151880758559 # 4503599627370496))))%Q
  /\ (efactor (gradedState fc1Graduated again 20000)
      == Qmax (double (13 # 10))
              (double (efactor fc1Graduated - (607985949695017 # 1125899906842624))))%Q
  /\ ((double (efactor fc1Graduated) == efactor fc1Graduated)%Q ->
      (double (13 # 10) <= efactor fc1Graduated)%Q ->
      (efactor (gradedState fc1Graduated good 20000) == efactor fc1Graduated)%Q)
  /\ ((efactor fc1Graduated == 5 # 2)%Q ->
      (efactor (gradedState fc1Graduated hard 20000)
       == 306807724614615 # 140737488355328)%Q).
Proof.
  apply (ease_change_per_grade fc1Graduated 20000). reflexivity.
Defined.

(** ** Unit progress *)

Lemma push_once_spec (unitId : string) (l : list string) :
  let l' := if bool_decide (unitId ∈ l) then l else l ++ [unitId] in
  unitId ∈ l'
  /\ (forall u, u ∈ l' <-> u ∈ l \/ u = unitId)
  /\ (NoDup l -> NoDup l')
  /\ (if bool_decide (unitId ∈ l') then l' else l' ++ [unitId]) = l'.
Proof.
  simpl. destruct (bool_decide (unitId ∈ l)) eqn:Hin.
  - apply bool_decide_eq_true in Hin. repeat split; try done.
    + intros Hu. by left.
    + by intros [Hu| ->].
    + by rewrite bool_decide_eq_true_2.
  - apply bool_decide_eq_false in Hin. repeat split.
    + apply elem_of_app. right. apply list_elem_of_here.
    + intros Hu. apply elem_of_app in Hu as [Hu|Hu]; [by left |].
      right. by apply list_elem_of_singleton in Hu.
    + intros [Hu| ->]; apply elem_of_app; [by left |].
      right. apply list_elem_of_here.
    + intros Hnd. apply NoDup_app. repeat split; [done | | apply NoDup_singleton].
      intros u Hu Hu'. apply list_elem_of_singleton in Hu' as ->. done.
    + rewrite bool_decide_eq_true_2; [done |].
      apply elem_of_app. right. apply list_elem_of_here.
Qed.

(** X18. Unlocking and completing units never list a unit twice: when the
    two lists of the progress record hold no duplicate, they hold none after
    [unlockUnit] or [completeUnit]; the unit is in its list afterwards, no
    other unit joins or leaves, each action leaves the other list alone, and
    doing it a second time changes nothing. *)
Theorem unit_progress_lists_stay_distinct (unitId : string) (progress : UserProgress) :
  NoDup (unlockedUnits progress) -> NoDup (completedUnits progress) ->
  (NoDup (unlockedUnits (unlockUnit unitId progress))
   /\ NoDup (completedUnits (completeUnit unitId progress)))
  /\ (forall u, u ∈ unlockedUnits (unlockUnit unitId progress)
                <-> u ∈ unlockedUnits progress \/ u = unitId)
  /\ (forall u, u ∈ completedUnits (completeUnit unitId progress)
                <-> u ∈ completedUnits progress \/ u = unitId)
  /\ completedUnits (unlockUnit unitId progress) = completedUnits progress
  /\ unlockedUnits (completeUnit unitId progress) = unlockedUnits progress
  /\ unlockUnit unitId (unlockUnit unitId progress) = unlockUnit unitId progress
  /\ completeUnit unitId (completeUnit unitId progress) = completeUnit unitId progress.
Proof.
  intros Hu Hc.
  destruct (push_once_spec unitId (unlockedUnits progress)) as (_ & Hmem & Hnd & Hidem).
  destruct (push_once_spec unitId (completedUnits progress)) as (_ & Hmem' & Hnd' & Hidem').
  simpl in *.
  split; [split; [by apply Hnd | by apply Hnd'] |].
  split; [exact Hmem |]. split; [exact Hmem' |].
  split; [reflexivity |]. split; [reflexivity |].
  split.
  - unfold unlockUnit at 1 3. simpl. by rewrite Hidem.
  - unfold completeUnit at 1 3. simpl. by rewrite Hidem'.
Qed.

Lemma unit_progress_lists_stay_distinct_witness :
  let progress := {| completedUnits := []; unlockedUnits := ["two-pointers"];
                     parsonsProgress := ∅ |} in
  (NoDup (unlockedUnits (unlockUnit "sliding-window" progress))
   /\ NoDup (completedUnits (completeUnit "sliding-window" progress)))
  /\ (forall u, u ∈ unlockedUnits (unlockUnit "sliding-window" progress)
                <-> u ∈ unlockedUnits progress \/ u = "sliding-window")
  /\ (forall u, u ∈ completedUnits (completeUnit "sliding-window" progress)
                <-> u ∈ completedUnits progress \/ u = "sliding-window")
  /\ completedUnits (unlockUnit "sliding-window" progress) = completedUnits progress
  /\ unlockedUnits (completeUnit "sliding-window" progress) = unlockedUnits progress
  /\ unlockUnit "sliding-window" (unlockUnit "sliding-window" progress)
     = unlockUnit "sliding-window" progress
  /\ completeUnit "sliding-window" (completeUnit "sliding-window" progress)
     = completeUnit "sliding-window" progress.
Proof.
  apply (unit_progress_lists_stay_distinct "sliding-window"
           {| completedUnits := []; unlockedUnits := ["two-pointers"];
              parsonsProgress := ∅ |}).
  - simpl. apply NoDup_singleton.
  - simpl. apply NoDup_nil_2.
Defined.

(** ** Tracked problems *)

Lemma removeTrackedProblem_fresh (id : string) (trackedProblems : list TrackedProblem) :
  (forall p, p ∈ trackedProblems -> tp_id p <> id) ->
  removeTrackedProblem id trackedProblems = trackedProblems.
Proof.
  intros Hfresh. unfold removeTrackedProblem.
  induction trackedProblems as [|p ps IH]; [done |].
  rewrite filter_cons_True by (apply Hfresh, list_elem_of_here).
  f_equal. apply IH. intros q Hq. by apply Hfresh, list_elem_of_further.
Qed.

Lemma updateProblemStatus_fresh (id : string) (status : ProblemStatus)
    (unitId : option string) (trackedProblems : list TrackedProblem) :
  (forall p, p ∈ trackedProblems -> tp_id p <> id) ->
  updateProblemStatus id status unitId trackedProblems = trackedProblems.
Proof.
  intros Hfresh. unfold updateProblemStatus.
  induction trackedProblems as [|p ps IH]; [done |].
  simpl. rewrite bool_decide_eq_false_2 by (apply Hfresh, list_elem_of_here).
  f_equal. apply IH. intros q Hq. by apply Hfresh, list_elem_of_further.
Qed.

(** X19. The life of a tracked problem under a fresh id: [addTrackedProblem]
    puts it first with status generating and no unit; [updateProblemStatus]
    with that id then changes this one entry only, setting the status and
    taking the unit id when one is given (an absent or empty unit id keeps
    the old one); [removeTrackedProblem] with that id gives back the list as
    it was before the problem was added. *)
Theorem tracked_problem_life_cycle (id topic : string) (now : Z)
    (status : ProblemStatus) (unitId : option string)
    (trackedProblems : list TrackedProblem) :
  (forall p, p ∈ trackedProblems -> tp_id p <> id) ->
  updateProblemStatus id status unitId (addTrackedProblem id now topic trackedProblems)
  = {| tp_id := id; tp_topic := topic; tp_status := status; tp_createdAt := now;
       tp_unitId := match unitId with
                    | Some u => if bool_decide (u = "") then None else Some u
                    | None => None
                    end |} :: trackedProblems
  /\ removeTrackedProblem id
       (updateProblemStatus id status unitId
          (addTrackedProblem id now topic trackedProblems))
     = trackedProblems.
Proof.
  intros Hfresh.
  assert (Hupd : updateProblemStatus id status unitId
                   (addTrackedProblem id now topic trackedProblems)
                 = {| tp_id := id; tp_topic := topic; tp_status := status;
                      tp_createdAt := now;
                      tp_unitId := unitIdOr unitId None |} :: trackedProblems).
  { unfold addTrackedProblem, updateProblemStatus. simpl map.
    rewrite bool_decide_eq_true_2 by reflexivity. simpl.
    f_equal. by apply updateProblemStatus_fresh. }
  split.
  - rewrite Hupd. reflexivity.
  - rewrite Hupd. unfold removeTrackedProblem.
    rewrite filter_cons_False by (simpl; intros Hne; by apply Hne).
    by apply removeTrackedProblem_fresh.
Qed.

Lemma tracked_problem_life_cycle_witness :
  updateProblemStatus "p-2" verified (Some "unit-9")
    (addTrackedProblem "p-2" 5000 "heaps"
       [{| tp_id := "p-1"; tp_topic := "tries"; tp_status := needs_fix;
           tp_createdAt := 1000; tp_unitId := None |}])
  = {| tp_id := "p-2"; tp_topic := "heaps"; tp_status := verified; tp_createdAt := 5000;
       tp_unitId := match Some "unit-9" with
                    | Some u => if bool_decide (u = "") then None else Some u
                    | None => None
                    end |}
    :: [{| tp_id := "p-1"; tp_topic := "tries"; tp_status := needs_fix;
           tp_createdAt := 1000; tp_unitId := None |}]
  /\ removeTrackedProblem "p-2"
       (updateProblemStatus "p-2" verified (Some "unit-9")
          (addTrackedProblem "p-2" 5000 "heaps"
             [{| tp_id := "p-1"; tp_topic := "tries"; tp_status := needs_fix;
                 tp_createdAt := 1000; tp_unitId := None |}]))
     = [{| tp_id := "p-1"; tp_topic := "tries"; tp_status := needs_fix;
           tp_createdAt := 1000; tp_unitId := None |}].
Proof.
  apply (tracked_problem_life_cycle "p-2" "heaps" 5000 verified (Some "unit-9")).
  intros p Hp. apply list_elem_of_singleton in Hp as ->. simpl. discriminate.
Defined.

(** X20. [updateProblemStatus] keeps the list in shape and never drops a
    unit id: the ids, topics and creation times are the same position by
    position, entries with another id are untouched, an entry with the id
    gets the status, and an entry that had a unit id still has one. *)
Theorem updateProblemStatus_keeps_shape (id : string) (status : ProblemStatus)
    (unitId : option string) (trackedProblems : list TrackedProblem) :
  Forall2 (fun p p' =>
             tp_id p' = tp_id p /\ tp_topic p' = tp_topic p
             /\ tp_createdAt p' = tp_createdAt p
             /\ (tp_id p <> id -> p' = p)
             /\ (tp_id p = id -> tp_status p' = status)
             /\ (is_Some (tp_unitId p) -> is_Some (tp_unitId p')))
          trackedProblems
          (updateProblemStatus id status unitId trackedProblems).
Proof.
  unfold updateProblemStatus.
  induction trackedProblems as [|p ps IH]; simpl; constructor; [| exact IH].
  destruct (bool_decide (tp_id p = id)) eqn:Hid.
  - apply bool_decide_eq_true in Hid. simpl. repeat split; try done.
    intros Hsome. unfold unitIdOr. destruct unitId as [u|]; [| done].
    destruct (bool_decide (u = "")); [done | by eexists].
  - apply bool_decide_eq_false in Hid. repeat split; try done.
Qed.

(** ** Distinct ids in the deck *)

Lemma filter_NoDup_map {A B} (f : A -> B) (P : A -> Prop) `{forall x, Decision (P x)}
    (l : list A) :
  NoDup (map f l) -> NoDup (map f (filter P l)).
Proof.
  induction l as [|x l IH]; [done |].
  simpl. intros Hnd. apply NoDup_cons in Hnd as [Hx Hnd].
  destruct (decide (P x)) as [Hp|Hp].
  - rewrite filter_cons_True by done. simpl. apply NoDup_cons. split; [| by apply IH].
    intros Hin. apply Hx. apply list_elem_of_fmap in Hin as (y & Hy & Hin).
    apply list_elem_of_filter in Hin as [_ Hin].
    apply list_elem_of_fmap. by exists y.
  - rewrite filter_cons_False by done. by apply IH.
Qed.

(** X21. Adding generated cards keeps the ids of the deck distinct when the
    batch itself has distinct ids: with no id twice in the deck and none
    twice in the batch, no id is twice in the deck after
    [addGeneratedReviewCards].  The batch is only compared with the deck,
    not with itself: a card with a new id given twice is added twice. *)
Theorem added_cards_keep_ids_distinct (cards : list ReviewCard) (state : AppState) :
  NoDup (map card_id (reviewCards state)) ->
  (NoDup (map card_id cards) ->
   NoDup (map card_id (reviewCards (addGeneratedReviewCards cards state))))
  /\ (forall c, card_id c ∉ map card_id (reviewCards state) ->
                reviewCards (addGeneratedReviewCards [c; c] state)
                = reviewCards state ++ [c; c]).
Proof.
  intros Hdeck. split.
  - intros Hcards.
    destruct (addGeneratedReviewCards_unfold cards state) as [Hdeck' _].
    simpl in Hdeck'. rewrite Hdeck'. rewrite map_app.
    apply NoDup_app. repeat split; [done | | by apply filter_NoDup_map].
    intros id Hid Hid'.
    apply list_elem_of_fmap in Hid' as (c & -> & Hc).
    apply list_elem_of_filter in Hc as [Hnew _].
    apply Hnew. unfold idSet. by apply elem_of_list_to_set.
  - intros c Hc.
    destruct (addGeneratedReviewCards_unfold [c; c] state) as [Hdeck' _].
    simpl in Hdeck'. rewrite Hdeck'. f_equal.
    assert (Hnew : card_id c ∉ idSet (reviewCards state)).
    { unfold idSet. by rewrite elem_of_list_to_set. }
    rewrite filter_cons_True by done. rewrite filter_cons_True by done. done.
Qed.

Lemma added_cards_keep_ids_distinct_witness :
  (NoDup (map card_id [rewordedCard1]) ->
   NoDup (map card_id (reviewCards (addGeneratedReviewCards [rewordedCard1] emptyStore))))
  /\ (forall c, card_id c ∉ map card_id (reviewCards emptyStore) ->
                reviewCards (addGeneratedReviewCards [c; c] emptyStore)
                = reviewCards emptyStore ++ [c; c]).
Proof.
  apply (added_cards_keep_ids_distinct [rewordedCard1] emptyStore).
  simpl. apply NoDup_nil_2.
Defined.
